(** * esockets: the connection-dispatch core of [socket_server.py]

    A shallow embedding of [esockets/socket_server.py]:

    - [Py]      the Python values and exceptions the server manipulates;
    - [Client]  the transfer primitives [Client.send] / [Client.recv];
    - [Server]  [SocketServer]: registry, selector, handshakes, [disconnect],
                [stop], as a state-and-exception monad over the server object;
    - [Sched]   the two dispatch loops and the worker threads, as an
                executable interleaving of the statements of [Server].

    Definitions come first, the theorems about them follow. *)

From stdpp Require Import base gmap sets list strings.
From Stdlib Require Import ZArith Lia Strings.Byte.

Open Scope string_scope.
Open Scope nat_scope.
Open Scope list_scope.

Set Warnings "-clear-no-such-hyp".

(* ===================================================================== *)
(** * Python values and exceptions *)
(* ===================================================================== *)

Module Py.

(** The values a user callback returns and [handle_closed] receives as
    [reason]: [True]/[False], [None], integers and strings. *)
Inductive value :=
| VNone
| VBool (b : bool)
| VInt (z : Z)
| VStr (s : string).

(** [v is True]: identity with the singleton [True]; [1 is True] is false. *)
Definition is_True (v : value) : bool :=
  match v with
  | VBool true => true
  | _ => false
  end.

(** [bool(v)]: Python truthiness, for comparison with [is_True]. *)
Definition truthy (v : value) : bool :=
  match v with
  | VNone => false
  | VBool b => b
  | VInt z => negb (z =? 0)%Z
  | VStr s => negb (String.eqb s "")
  end.

(** Exception classes, up to what the [except] clauses of the module tell
    apart.  [OSError] stands for [socket.error] and its subclasses
    ([ConnectionResetError], [BlockingIOError], ...), [RuntimeError] for it
    and its subclasses. *)
Inductive exn_class :=
| OSError
| RuntimeError
| KeyError
| ValueError
| OverflowError
| OtherError.

(** An exception object: its class and [str(e)]. *)
Record exn := Exn { exn_cls : exn_class; exn_str : string }.

(** The result of calling a user callback. *)
Inductive outcome (A : Type) :=
| Returns (a : A)
| Raises (e : exn).
Arguments Returns {A} a.
Arguments Raises {A} e.

(** [except (socket.error, RuntimeError) as e] *)
Definition is_socket_or_runtime_error (e : exn) : bool :=
  match exn_cls e with
  | OSError | RuntimeError => true
  | _ => false
  end.

(** [except KeyError] *)
Definition is_KeyError (e : exn) : bool :=
  match exn_cls e with
  | KeyError => true
  | _ => false
  end.

End Py.
Export Py.

#[global] Instance value_eq_dec : EqDecision value.
Proof. solve_decision. Defined.
#[global] Instance exn_class_eq_dec : EqDecision exn_class.
Proof. solve_decision. Defined.
#[global] Instance exn_eq_dec : EqDecision exn.
Proof. solve_decision. Defined.

(* ===================================================================== *)
(** * Client: transfer primitives *)
(* ===================================================================== *)

Module Client.

(** The flags of a [Client] object ([Client.__init__], l.15-21).  The
    socket handle is represented by [closed]: [Client.close] is the only
    statement of the module that closes it. *)
Record t := Build {
  closed : bool;
  accepted : bool;
  close_handled : bool
}.

(** [Client(sock, address)] *)
Definition init : t :=
  {| closed := false; accepted := false; close_handled := false |}.

(** [self.closed = True] (l.32) *)
Definition mark_closed (o : t) : t :=
  {| closed := true; accepted := accepted o;
     close_handled := close_handled o |}.

(** [client.accepted = True] (l.204) *)
Definition mark_accepted (o : t) : t :=
  {| closed := closed o; accepted := true;
     close_handled := close_handled o |}.

(** The two [RuntimeError]s of the module (l.43, l.57, l.65). *)
Definition broken_on_send : exn :=
  Exn RuntimeError "Socket connection broken on send".
Definition broken_on_recv : exn :=
  Exn RuntimeError "Socket connection broken on recv".

(** What a blocking or failing call can do besides returning. *)
Inductive io (A : Type) :=
| Done (a : A)          (* returns a *)
| Fails (e : exn)       (* raises e *)
| Hangs                 (* never returns *)
| NoFuel.               (* the model's loop bound was too small *)
Arguments Done {A} a.
Arguments Fails {A} e.
Arguments Hangs {A}.
Arguments NoFuel {A}.

(** ** [threading.Lock]

    [send_lock] as the caller of [send] finds it: free, or held by another
    thread that releases it [d] time units from now, or never. *)
Inductive lock_env :=
| FreeAfter (d : Z)     (* d <= 0: free now *)
| HeldForever.

Inductive acquired :=
| Acquired              (* acquire returned True *)
| TimedOut              (* acquire returned False *)
| Waits                 (* acquire never returns *)
| Rejected (e : exn).   (* acquire raised *)

(** [threading.TIMEOUT_MAX], in whole seconds, where the clock counts
    nanoseconds in 64 bits. *)
Definition TIMEOUT_MAX : Z := 9223372036.

(** [Lock.acquire(timeout=timeout)] (blocking defaults to True), the
    timeout being an integer number of seconds.  The timeout is converted
    first, and one beyond [TIMEOUT_MAX] on either side is refused with
    [OverflowError] whatever the state of the lock; then [-1] is the
    unbounded wait, any other negative timeout is refused with
    [ValueError], and a timeout [t >= 0] waits at most [t]; [t = 0] is a
    single attempt. *)
Definition Lock_acquire (lk : lock_env) (timeout : Z) : acquired :=
  if (TIMEOUT_MAX <? Z.abs timeout)%Z then
    Rejected (Exn OverflowError "timestamp too large to convert to C _PyTime_t")
  else if (timeout =? -1)%Z then
    match lk with
    | FreeAfter _ => Acquired
    | HeldForever => Waits
    end
  else if (timeout <? 0)%Z then
    Rejected (Exn ValueError "timeout value must be positive")
  else
    match lk with
    | FreeAfter d => if (d <=? timeout)%Z then Acquired else TimedOut
    | HeldForever => TimedOut
    end.

(** ** The socket, seen from [send]

    The [n]-th call of [socket.send(data)] either raises, or the kernel
    takes up to [room] bytes of [data] and the call returns how many it
    took. *)
Inductive sock_write :=
| Room (room : nat)
| WriteError (e : exn).

Definition socket_send (w : sock_write) (data : list Byte.byte) : outcome nat :=
  match w with
  | Room room => Returns (Nat.min room (length data))
  | WriteError e => Raises e
  end.

(** What [send] leaves behind: its result, the bytes put on the wire and
    the number of [socket.send] calls. *)
Record sent := Sent {
  send_result : io nat;
  wire : list Byte.byte;
  send_calls : nat
}.

(** The [while total_sent < msg_len] loop of [send] (l.40-44). *)
Fixpoint send_loop (fuel : nat) (sock : nat -> sock_write) (call : nat)
    (bytes : list Byte.byte) (total_sent msg_len : nat)
    (out : list Byte.byte) : io nat * list Byte.byte * nat :=
  if total_sent <? msg_len then
    match fuel with
    | O => (NoFuel, out, call)
    | S fuel' =>
        match socket_send (sock call) (drop total_sent bytes) with
        | Raises e => (Fails e, out, S call)
        | Returns n =>
            if n =? 0 then
              (Fails broken_on_send, out, S call)
            else
              send_loop fuel' sock (S call) bytes (total_sent + n) msg_len
                (out ++ take n (drop total_sent bytes))
        end
    end
  else (Done total_sent, out, call).

(** [Client.send(bytes, timeout=-1)] (l.34-48). *)
Definition send (lk : lock_env) (sock : nat -> sock_write)
    (bytes : list Byte.byte) (timeout : Z) : sent :=
  let total_sent := 0 in
  let msg_len := length bytes in
  match Lock_acquire lk timeout with
  | Acquired =>
      let '(r, out, calls) :=
        send_loop msg_len sock 0 bytes total_sent msg_len [] in
      Sent r out calls
  | TimedOut => Sent (Done total_sent) [] 0
  | Waits => Sent Hangs [] 0
  | Rejected e => Sent (Fails e) [] 0
  end.

(** ** The socket, seen from [recv]

    The [n]-th call of [socket.recv(bufsize)] either raises, or returns at
    most [bufsize] of the bytes that have arrived; none have arrived exactly
    when the peer has closed. *)
Inductive sock_read :=
| Arrived (data : list Byte.byte)
| ReadError (e : exn).

Definition socket_recv (r : sock_read) (bufsize : Z) : outcome (list Byte.byte) :=
  match r with
  | Arrived data =>
      if (bufsize <? 0)%Z then
        Raises (Exn ValueError "negative buffersize in recv")
      else Returns (take (Z.to_nat bufsize) data)
  | ReadError e => Raises e
  end.

(** What [recv] leaves behind: its result and the buffer sizes it asked
    the socket for, in order. *)
Record received := Received {
  recv_result : io (list Byte.byte);
  requests : list Z
}.

(** The [while bytes_recd < size] loop of [recv] (l.54-59). *)
Fixpoint recv_loop (fuel : nat) (sock : nat -> sock_read) (call : nat)
    (size bytes_recd : Z) (chunks : list (list Byte.byte))
    (asked : list Z) : received :=
  if (bytes_recd <? size)%Z then
    match fuel with
    | O => Received NoFuel asked
    | S fuel' =>
        let bufsize := Z.min (size - bytes_recd) 2048 in
        match socket_recv (sock call) bufsize with
        | Raises e => Received (Fails e) (asked ++ [bufsize])
        | Returns chunk =>
            if bool_decide (chunk = []) then
              Received (Fails broken_on_recv) (asked ++ [bufsize])
            else
              recv_loop fuel' sock (S call) size
                (bytes_recd + Z.of_nat (length chunk))
                (chunks ++ [chunk]) (asked ++ [bufsize])
        end
    end
  else Received (Done (concat chunks)) asked.

(** [Client.recv(size, fixed=True)] (l.50-66). *)
Definition recv (sock : nat -> sock_read) (size : Z) (fixed : bool) : received :=
  if fixed then
    recv_loop (Z.to_nat size) sock 0 size 0 [] []
  else
    match socket_recv (sock 0) size with
    | Raises e => Received (Fails e) [size]
    | Returns data =>
        if bool_decide (data = []) then
          Received (Fails broken_on_recv) [size]
        else Received (Done data) [size]
    end.

End Client.

(* ===================================================================== *)
(** * SocketServer *)
(* ===================================================================== *)

Module Server.

(** The [Log] decorator around the methods writes to the log and raises
    again what the method raised; it is left out, as are the calls of
    [logging]. *)

(** A [Client] object is named by its identity; [in], [remove] and [==]
    on clients compare identities, as no [__eq__] is defined. *)
Definition cid := nat.

(** The two [loopfunction.Loop] objects of [_loop_objects], in order. *)
Inductive loop_id := AcceptLoop | PollLoop.

(** The calls the server makes on its collaborators, in program order. *)
Inductive event :=
| EvSelRegister (c : cid)            (* _recv_selector.register(c, EVENT_READ) *)
| EvSelUnregister (c : cid)          (* _recv_selector.unregister(c) *)
| EvSockShutdown (c : cid)           (* c.socket.shutdown(SHUT_RDWR) *)
| EvSockClose (c : cid)              (* c.socket.close() *)
| EvRegistryRemove (c : cid)         (* clients.remove(c) *)
| EvHandleIncoming (c : cid)         (* handle_incoming(c) *)
| EvHandleReadable (c : cid)         (* handle_readable(c) *)
| EvHandleClosed (c : cid) (reason : value)   (* handle_closed(c, reason) *)
| EvBind
| EvListen
| EvLoopStart (l : loop_id)
| EvStopSignal (l : loop_id)         (* l.send_stop_signal(silent=True) *)
| EvLoopStop (l : loop_id)           (* l.stop(silent=True) *)
| EvServerShutdown                   (* _server_socket.shutdown(SHUT_RDWR) *)
| EvServerClose.                     (* _server_socket.close() *)

(** The listening socket. *)
Inductive listener := Unbound | Listening | ListenerClosed.

(** The [SocketServer] object.  The callbacks are fields, as in
    [__init__]; a callback is given by what it answers for each client.
    [heap] holds the [Client] objects, [bind_error] what [bind] will
    answer. *)
Record t := Build {
  handle_readable : cid -> outcome value;
  handle_incoming : cid -> outcome value;
  handle_closed : cid -> value -> outcome value;
  bind_error : option exn;
  _server_socket : listener;
  _recv_selector : gset cid;
  clients : list cid;
  heap : gmap cid Client.t;
  trace : list event
}.

(** [SocketServer(...)] with the default callbacks (l.126-128). *)
Definition init : t :=
  {| handle_readable := fun _ => Returns (VBool true);
     handle_incoming := fun _ => Returns (VBool true);
     handle_closed := fun _ _ => Returns (VBool true);
     bind_error := None;
     _server_socket := Unbound;
     _recv_selector := ∅;
     clients := [];
     heap := ∅;
     trace := [] |}.

Definition set_selector (f : gset cid -> gset cid) (s : t) : t :=
  {| handle_readable := handle_readable s;
     handle_incoming := handle_incoming s;
     handle_closed := handle_closed s;
     bind_error := bind_error s;
     _server_socket := _server_socket s;
     _recv_selector := f (_recv_selector s);
     clients := clients s;
     heap := heap s;
     trace := trace s |}.

Definition set_clients (f : list cid -> list cid) (s : t) : t :=
  {| handle_readable := handle_readable s;
     handle_incoming := handle_incoming s;
     handle_closed := handle_closed s;
     bind_error := bind_error s;
     _server_socket := _server_socket s;
     _recv_selector := _recv_selector s;
     clients := f (clients s);
     heap := heap s;
     trace := trace s |}.

Definition set_heap (f : gmap cid Client.t -> gmap cid Client.t) (s : t) : t :=
  {| handle_readable := handle_readable s;
     handle_incoming := handle_incoming s;
     handle_closed := handle_closed s;
     bind_error := bind_error s;
     _server_socket := _server_socket s;
     _recv_selector := _recv_selector s;
     clients := clients s;
     heap := f (heap s);
     trace := trace s |}.

Definition set_listener (l : listener) (s : t) : t :=
  {| handle_readable := handle_readable s;
     handle_incoming := handle_incoming s;
     handle_closed := handle_closed s;
     bind_error := bind_error s;
     _server_socket := l;
     _recv_selector := _recv_selector s;
     clients := clients s;
     heap := heap s;
     trace := trace s |}.

Definition set_handle_incoming (f : cid -> outcome value) (s : t) : t :=
  {| handle_readable := handle_readable s;
     handle_incoming := f;
     handle_closed := handle_closed s;
     bind_error := bind_error s;
     _server_socket := _server_socket s;
     _recv_selector := _recv_selector s;
     clients := clients s;
     heap := heap s;
     trace := trace s |}.

Definition set_handle_readable (f : cid -> outcome value) (s : t) : t :=
  {| handle_readable := f;
     handle_incoming := handle_incoming s;
     handle_closed := handle_closed s;
     bind_error := bind_error s;
     _server_socket := _server_socket s;
     _recv_selector := _recv_selector s;
     clients := clients s;
     heap := heap s;
     trace := trace s |}.

Definition set_handle_closed (f : cid -> value -> outcome value) (s : t) : t :=
  {| handle_readable := handle_readable s;
     handle_incoming := handle_incoming s;
     handle_closed := f;
     bind_error := bind_error s;
     _server_socket := _server_socket s;
     _recv_selector := _recv_selector s;
     clients := clients s;
     heap := heap s;
     trace := trace s |}.

Definition log (e : event) (s : t) : t :=
  {| handle_readable := handle_readable s;
     handle_incoming := handle_incoming s;
     handle_closed := handle_closed s;
     bind_error := bind_error s;
     _server_socket := _server_socket s;
     _recv_selector := _recv_selector s;
     clients := clients s;
     heap := heap s;
     trace := trace s ++ [e] |}.

(** The object behind an identity; one never written to is as
    [Client.__init__] made it. *)
Definition client (s : t) (c : cid) : Client.t :=
  default Client.init (heap s !! c).

(** ** The monad of the methods: state and exceptions *)

Inductive result (A : Type) :=
| Ok (a : A)
| Err (e : exn).
Arguments Ok {A} a.
Arguments Err {A} e.

Definition M (A : Type) : Type := t -> result A * t.

Definition ret {A} (a : A) : M A := fun s => (Ok a, s).

Definition bind {A B} (m : M A) (k : A -> M B) : M B :=
  fun s =>
    match m s with
    | (Ok a, s') => k a s'
    | (Err e, s') => (Err e, s')
    end.

Definition raise {A} (e : exn) : M A := fun s => (Err e, s).

(** [try: m  except <any> as e: h e] *)
Definition try_except {A} (m : M A) (h : exn -> M A) : M A :=
  fun s =>
    match m s with
    | (Ok a, s') => (Ok a, s')
    | (Err e, s') => h e s'
    end.

Definition gets {A} (f : t -> A) : M A := fun s => (Ok (f s), s).
Definition modify (f : t -> t) : M unit := fun s => (Ok tt, f s).
Definition emit (e : event) : M unit := modify (log e).

(** What a call of a callback answers, as a computation. *)
Definition answer {A} (o : outcome A) : M A :=
  match o with
  | Returns a => ret a
  | Raises e => raise e
  end.

Declare Scope server_scope.
Delimit Scope server_scope with server.
Notation "'let*' x ':=' m 'in' k" := (bind m (fun x => k))
  (at level 10, x name, m at level 100, k at level 200) : server_scope.
Notation "m '>>' k" := (bind m (fun _ => k))
  (at level 100, k at level 200, right associativity) : server_scope.
Open Scope server_scope.

(** ** The selector ([selectors.BaseSelector])

    A file object is looked up by its descriptor, and a closed socket has
    none ([fileno()] is -1): the selector then searches its keys for the
    object itself and raises [ValueError] when it is not among them.
    Distinct open clients have distinct descriptors, so that among open
    clients a key is a client, and the key set is modelled as a set of
    clients.  A closed client that is still a key keeps the descriptor it
    had, which the system may give to a later connection: what [register]
    and [unregister] then do for that connection is outside this model,
    and the statements on their outcome suppose [selector_keys_open]
    (defined with the observations below), which calls made one after
    the other maintain. *)

(** [_recv_selector.register(c, EVENT_READ)] *)
Definition sel_register (c : cid) : M unit :=
  emit (EvSelRegister c) >>
  let* s := gets id in
  if bool_decide (c ∈ _recv_selector s) then
    raise (Exn KeyError "client is already registered")
  else if Client.closed (client s c) then
    raise (Exn ValueError "Invalid file descriptor: -1")
  else modify (set_selector (fun sel => sel ∪ {[c]})).

(** [_recv_selector.unregister(c)] *)
Definition sel_unregister (c : cid) : M unit :=
  emit (EvSelUnregister c) >>
  let* s := gets id in
  if bool_decide (c ∈ _recv_selector s) then
    modify (set_selector (fun sel => sel ∖ {[c]}))
  else if Client.closed (client s c) then
    raise (Exn ValueError "Invalid file descriptor: -1")
  else raise (Exn KeyError "client is not registered").

(** ** [Client.close] (l.26-32): an error of [shutdown] is passed over. *)
Definition close (c : cid) : M unit :=
  emit (EvSockShutdown c) >>
  emit (EvSockClose c) >>
  let* s := gets id in
  modify (set_heap (fun h => <[c := Client.mark_closed (client s c)]> h)).

(** [client.accepted = True] (l.204) *)
Definition set_accepted (c : cid) : M unit :=
  let* s := gets id in
  modify (set_heap (fun h => <[c := Client.mark_accepted (client s c)]> h)).

(** ** [register] and [unregister] (l.257-280) *)

Definition register (c : cid) (silent : bool) : M unit :=
  try_except (sel_register c) (fun e =>
    if is_KeyError e then
      if negb silent then raise (Exn KeyError "'Client already registered'")
      else ret tt
    else raise e).

Definition unregister (c : cid) (silent : bool) : M unit :=
  try_except (sel_unregister c) (fun e =>
    if is_KeyError e then
      if negb silent then raise (Exn KeyError "'Client already registered'")
      else ret tt
    else raise e).

(** ** [disconnect] (l.282-298) *)

(** [list.remove]: the first occurrence. *)
Fixpoint list_remove (c : cid) (l : list cid) : list cid :=
  match l with
  | [] => []
  | x :: l' => if bool_decide (x = c) then l' else x :: list_remove c l'
  end.

(** [if client in self.clients: self.clients.remove(client)] *)
Definition remove_from_registry (c : cid) : M unit :=
  let* s := gets id in
  if bool_decide (c ∈ clients s) then
    emit (EvRegistryRemove c) >>
    modify (set_clients (list_remove c))
  else ret tt.

(** [self.handle_closed(client, reason)], the callback answering [o]. *)
Definition notify_closed (c : cid) (reason : value) (o : outcome value) : M unit :=
  emit (EvHandleClosed c reason) >>
  let* _ := answer o in
  ret tt.

Definition call_handle_closed (c : cid) (reason : value) : M unit :=
  let* s := gets id in
  notify_closed c reason (handle_closed s c reason).

(** The [else] branch (l.291-298): one client. *)
Definition disconnect_client (c : cid) (reason : value) : M unit :=
  unregister c true >>
  close c >>
  remove_from_registry c >>
  call_handle_closed c reason.

(** The first argument of [disconnect]: a client, or an iterable of such
    arguments ([hasattr(client, '__iter__')]).  An iterable either holds
    its elements, as a list or a tuple made by the caller does, or draws
    them from the registry: it is the registry itself, [self.clients], or
    an iterator over it that has handed out [pos] elements so far, as
    [iter(self.clients)] or a generator that yields its elements. *)
#[warnings="-register-all"]
Inductive target :=
| One (c : cid)
| Many (l : list target)
| Registry
| RegistryIter (pos : nat).

(** The loop of l.287-288 over clients; a [Client] has no [__iter__], so
    that each call of l.288 takes the [else] branch. *)
Fixpoint disconnect_each (l : list cid) (reason : value) : M unit :=
  match l with
  | [] => ret tt
  | c :: l' => disconnect_client c reason >> disconnect_each l' reason
  end.

(** The same loop over a list iterator on the registry, which is not
    copied: [next] hands out the element at [pos] of the registry as it
    is at that moment and moves on by one, or ends the loop when there is
    none, while the body removes from the registry.  [fuel] bounds the
    number of iterations; the registry does not grow in the loop, so its
    length less [pos] is enough (lemma [disconnect_walk_fuel]). *)
Fixpoint disconnect_walk (fuel : nat) (pos : nat) (reason : value) : M unit :=
  match fuel with
  | O => ret tt
  | S fuel' =>
      let* s := gets id in
      match clients s !! pos with
      | None => ret tt
      | Some c =>
          disconnect_client c reason >>
          disconnect_walk fuel' (S pos) reason
      end
  end.

(** [disconnect(client, reason, how)]; [how] is passed along and never
    used.  An argument equal to [self.clients] is copied first
    (l.285-286), and so is the registry itself; a list that holds its
    elements is another object, which the loop body does not touch, and is
    equal to its copy if it is copied; an iterator over the registry is
    neither a copy nor copied. *)
Fixpoint disconnect (tg : target) (reason : value) : M unit :=
  match tg with
  | One c => disconnect_client c reason
  | Many l =>
      (fix each (l : list target) : M unit :=
         match l with
         | [] => ret tt
         | i :: l' => disconnect i reason >> each l'
         end) l
  | Registry =>
      let* s := gets id in
      disconnect_each (clients s) reason
  | RegistryIter pos =>
      let* s := gets id in
      disconnect_walk (length (clients s) - pos) pos reason
  end.

(** ** The handshakes (l.192-224) *)

(** Which handshake a worker runs. *)
Inductive kind := Incoming | Readable.

(** [_subthread_handle_accepted], from the point where [handle_incoming]
    has answered [o]. *)
Definition accepted_after (c : cid) (o : outcome value) : M unit :=
  match o with
  | Raises e =>
      if is_socket_or_runtime_error e then disconnect (One c) (VStr (exn_str e))
      else raise e
  | Returns v =>
      let* s := gets id in
      if is_True v && negb (Client.closed (client s c)) then
        set_accepted c >>
        register c false
      else disconnect (One c) v
  end.

Definition _subthread_handle_accepted (c : cid) : M unit :=
  emit (EvHandleIncoming c) >>
  let* s := gets id in
  accepted_after c (handle_incoming s c).

(** [_subthread_handle_readable], from the point where [handle_readable]
    has answered [o]. *)
Definition readable_after (c : cid) (o : outcome value) : M unit :=
  match o with
  | Raises e =>
      if is_socket_or_runtime_error e then disconnect (One c) (VStr (exn_str e))
      else raise e
  | Returns v =>
      let* s := gets id in
      if is_True v && negb (Client.closed (client s c)) then
        register c false
      else disconnect (One c) v
  end.

Definition _subthread_handle_readable (c : cid) : M unit :=
  emit (EvHandleReadable c) >>
  let* s := gets id in
  readable_after c (handle_readable s c).

(** The callback of a handshake, the record of its call, and the
    handshake itself. *)
Definition callback (k : kind) (s : t) : cid -> outcome value :=
  match k with
  | Incoming => handle_incoming s
  | Readable => handle_readable s
  end.

Definition call_event (k : kind) (c : cid) : event :=
  match k with
  | Incoming => EvHandleIncoming c
  | Readable => EvHandleReadable c
  end.

Definition handshake (k : kind) (c : cid) : M unit :=
  match k with
  | Incoming => _subthread_handle_accepted c
  | Readable => _subthread_handle_readable c
  end.

(** ** [start] and [stop] (l.226-255) *)

(** [bind] answers [bind_error] on a socket that is not bound yet; on one
    that is bound already, as after a first [start], it raises
    [EINVAL], and on a closed one, as after [stop], [EBADF]. *)
Definition start : M unit :=
  emit EvBind >>
  let* s := gets id in
  match _server_socket s with
  | Unbound =>
      match bind_error s with
      | Some e => raise e
      | None =>
          emit EvListen >>
          modify (set_listener Listening) >>
          emit (EvLoopStart AcceptLoop) >>
          emit (EvLoopStart PollLoop)
      end
  | Listening => raise (Exn OSError "[Errno 22] Invalid argument")
  | ListenerClosed => raise (Exn OSError "[Errno 9] Bad file descriptor")
  end.

(** [_server_socket.shutdown(SHUT_RDWR)]: refused on a socket that is not
    listening. *)
Definition server_shutdown : M unit :=
  emit EvServerShutdown >>
  let* s := gets id in
  match _server_socket s with
  | Listening => ret tt
  | Unbound =>
      raise (Exn OSError "[Errno 107] Transport endpoint is not connected")
  | ListenerClosed => raise (Exn OSError "[Errno 9] Bad file descriptor")
  end.

Definition server_close : M unit :=
  emit EvServerClose >>
  modify (set_listener ListenerClosed).

(** The reason [stop] gives (l.244). *)
Definition shutting_down : value := VStr "Server shutting down".

Definition stop : M unit :=
  let* s := gets id in
  disconnect (Many (One <$> clients s)) shutting_down >>
  emit (EvStopSignal AcceptLoop) >>
  emit (EvStopSignal PollLoop) >>
  emit (EvLoopStop AcceptLoop) >>
  emit (EvLoopStop PollLoop) >>
  server_shutdown >>
  server_close.

(** [SocketServer.send] (l.300-308), from the point where [client.send]
    has answered [o]. *)
Definition send_after (c : cid) (o : outcome nat) : M nat :=
  match o with
  | Raises e =>
      if is_socket_or_runtime_error e then
        disconnect (One c) (VStr (exn_str e)) >>
        ret 0
      else raise e
  | Returns sent => ret sent
  end.

(** ** Observations *)

(** Three live connections, two of them registered and one in a worker,
    on a listening server. *)
Definition three_clients : t :=
  set_listener Listening
    (set_selector (fun _ => {[0; 1]})
       (set_clients (fun _ => [0; 1; 2]) init)).

(** The calls one [disconnect] of an open client makes, in order. *)
Definition disconnect_calls (c : cid) (reason : value) (in_registry : bool)
    : list event :=
  [EvSelUnregister c; EvSockShutdown c; EvSockClose c]
  ++ (if in_registry then [EvRegistryRemove c] else [])
  ++ [EvHandleClosed c reason].

(** The calls of [handle_closed] on [c] in a trace. *)
Fixpoint closed_calls (c : cid) (tr : list event) : nat :=
  match tr with
  | [] => 0
  | EvHandleClosed c' _ :: tr' =>
      (if bool_decide (c' = c) then 1 else 0) + closed_calls c tr'
  | _ :: tr' => closed_calls c tr'
  end.

(** [close_handled] is as [Client.__init__] left it, in every object. *)
Definition flag_unset (s : t) : Prop :=
  map_Forall (fun _ o => Client.close_handled o = false) (heap s).

(** Every key of the selector is an open client: no closed client holds
    a descriptor that a new connection could be given. *)
Definition selector_keys_open (s : t) : Prop :=
  forall c, c ∈ _recv_selector s -> Client.closed (client s c) = false.

(** What no method changes: the callbacks and the answer of [bind]. *)
Definition same_setup (s s' : t) : Prop :=
  handle_readable s' = handle_readable s /\
  handle_incoming s' = handle_incoming s /\
  handle_closed s' = handle_closed s /\
  bind_error s' = bind_error s.

End Server.

(* ===================================================================== *)
(** * The dispatch loops and the workers, interleaved *)
(* ===================================================================== *)

Module Sched.
Import Server.

(** The four statements of [disconnect_client], l.291, 292, 294-295, 298. *)
Inductive dpc := DUnregister | DClose | DRemove | DNotify.

Definition dpc_next (pc : dpc) : option dpc :=
  match pc with
  | DUnregister => Some DClose
  | DClose => Some DRemove
  | DRemove => Some DNotify
  | DNotify => None
  end.

(** The statement at [pc]; [o] is what [handle_closed] answers when the
    statement is its call. *)
Definition disconnect_stmt (pc : dpc) (c : cid) (reason : value)
    (o : outcome value) : M unit :=
  match pc with
  | DUnregister => unregister c true
  | DClose => close c
  | DRemove => remove_from_registry c
  | DNotify => notify_closed c reason o
  end.

(** Where a handshake worker stands. *)
Inductive wpc :=
| WCall                                 (* l.199 / l.217: before the callback *)
| WAnswered (o : outcome value)         (* the callback has answered *)
| WSetAccepted                          (* l.204 *)
| WRegister                             (* l.205 / l.222 *)
| WDisconnect (pc : dpc) (reason : value).   (* inside self.disconnect *)

(** A thread of the pool: a handshake worker on a client, a thread inside
    the public [disconnect] of one client (an API caller, or the bulk pass
    of [stop] at that client), or a thread that is over, normally or by an
    exception. *)
Inductive thread :=
| Worker (k : kind) (c : cid) (pc : wpc)
| Caller (c : cid) (pc : dpc) (reason : value)
| Exited (e : option exn).

(** [_mainthread_poll_readable] (l.180-190). *)
Inductive poll_pc :=
| PollSelect                             (* l.184 *)
| PollFor (events : list cid)            (* l.185 *)
| PollSubmit (c : cid) (events : list cid).   (* l.189, after l.187 *)

(** [_mainthread_accept_clients] (l.164-177). *)
Inductive accept_pc :=
| AcceptSelect                           (* l.168 *)
| AcceptSubmit (c : cid).                (* l.174, after l.172 *)

Record system := System {
  server : Server.t;
  poll : poll_pc;
  accept : accept_pc;
  threads : list thread;
  fresh : cid                            (* the next Client object *)
}.

Definition init : system :=
  {| server := Server.init; poll := PollSelect; accept := AcceptSelect;
     threads := []; fresh := 0 |}.

(** One scheduling decision, with what the environment answers there. *)
Inductive label :=
| LPoll (ready : list cid)      (* the poll loop runs its next statement;
                                   [ready] is what select reports *)
| LAccept                       (* the accept loop runs its next statement,
                                   a connection being pending *)
| LThread (i : nat) (o : outcome value)
                                (* thread [i] runs its next statement; [o]
                                   is the answer of the callback it calls *)
| LDisconnect (c : cid) (reason : value).
                                (* a thread enters disconnect(c, reason) *)

(** Run statement [m]; go on as [next], or die of the exception. *)
Definition advance (m : M unit) (next : thread) (s : Server.t)
    : thread * Server.t :=
  match m s with
  | (Ok _, s') => (next, s')
  | (Err e, s') => (Exited (Some e), s')
  end.

Definition after_disconnect_stmt (pc : dpc) (k : dpc -> thread) : thread :=
  match dpc_next pc with
  | Some pc' => k pc'
  | None => Exited None
  end.

(** The next statement of a thread. *)
Definition thread_step (th : thread) (o : outcome value) (s : Server.t)
    : option (thread * Server.t) :=
  match th with
  | Worker k c WCall =>
      Some (Worker k c (WAnswered o), log (call_event k c) s)
  | Worker k c (WAnswered (Raises e)) =>
      if is_socket_or_runtime_error e then
        Some (Worker k c (WDisconnect DUnregister (VStr (exn_str e))), s)
      else Some (Exited (Some e), s)
  | Worker k c (WAnswered (Returns v)) =>
      if is_True v && negb (Client.closed (client s c)) then
        match k with
        | Incoming => Some (Worker k c WSetAccepted, s)
        | Readable => Some (Worker k c WRegister, s)
        end
      else Some (Worker k c (WDisconnect DUnregister v), s)
  | Worker k c WSetAccepted =>
      Some (advance (set_accepted c) (Worker k c WRegister) s)
  | Worker k c WRegister =>
      Some (advance (register c false) (Exited None) s)
  | Worker k c (WDisconnect pc reason) =>
      Some (advance (disconnect_stmt pc c reason o)
              (after_disconnect_stmt pc (fun pc' =>
                 Worker k c (WDisconnect pc' reason))) s)
  | Caller c pc reason =>
      Some (advance (disconnect_stmt pc c reason o)
              (after_disconnect_stmt pc (fun pc' => Caller c pc' reason)) s)
  | Exited _ => None
  end.

(** [select] reports each ready key once, and only registered ones. *)
Definition select_ok (ready : list cid) (s : Server.t) : bool :=
  bool_decide (NoDup ready) &&
  forallb (fun c => bool_decide (c ∈ _recv_selector s)) ready.

(** The next statement of the poll loop.  An exception of [unregister]
    ends the run of the body; the loop object calls the body again. *)
Definition poll_step (ready : list cid) (sys : system) : option system :=
  match poll sys with
  | PollSelect =>
      if select_ok ready (server sys) then
        Some {| server := server sys; poll := PollFor ready;
                accept := accept sys; threads := threads sys;
                fresh := fresh sys |}
      else None
  | PollFor [] =>
      Some {| server := server sys; poll := PollSelect;
              accept := accept sys; threads := threads sys;
              fresh := fresh sys |}
  | PollFor (c :: events) =>
      match sel_unregister c (server sys) with
      | (Ok _, s') =>
          Some {| server := s'; poll := PollSubmit c events;
                  accept := accept sys; threads := threads sys;
                  fresh := fresh sys |}
      | (Err _, s') =>
          Some {| server := s'; poll := PollSelect;
                  accept := accept sys; threads := threads sys;
                  fresh := fresh sys |}
      end
  | PollSubmit c events =>
      Some {| server := server sys; poll := PollFor events;
              accept := accept sys;
              threads := threads sys ++ [Worker Readable c WCall];
              fresh := fresh sys |}
  end.

(** The next statement of the accept loop. *)
Definition accept_step (sys : system) : option system :=
  match accept sys with
  | AcceptSelect =>
      let c := fresh sys in
      Some {| server :=
                set_clients (fun l => l ++ [c])
                  (set_heap (fun h => <[c := Client.init]> h) (server sys));
              poll := poll sys; accept := AcceptSubmit c;
              threads := threads sys; fresh := S c |}
  | AcceptSubmit c =>
      Some {| server := server sys; poll := poll sys; accept := AcceptSelect;
              threads := threads sys ++ [Worker Incoming c WCall];
              fresh := fresh sys |}
  end.

Definition exec (l : label) (sys : system) : option system :=
  match l with
  | LPoll ready => poll_step ready sys
  | LAccept => accept_step sys
  | LThread i o =>
      match threads sys !! i with
      | Some th =>
          match thread_step th o (server sys) with
          | Some (th', s') =>
              Some {| server := s'; poll := poll sys; accept := accept sys;
                      threads := <[i := th']> (threads sys);
                      fresh := fresh sys |}
          | None => None
          end
      | None => None
      end
  | LDisconnect c reason =>
      Some {| server := server sys; poll := poll sys; accept := accept sys;
              threads := threads sys ++ [Caller c DUnregister reason];
              fresh := fresh sys |}
  end.

(** A schedule, run from [sys]; [None] when a decision is not possible. *)
Fixpoint run (ls : list label) (sys : system) : option system :=
  match ls with
  | [] => Some sys
  | l :: ls' =>
      match exec l sys with
      | Some sys' => run ls' sys'
      | None => None
      end
  end.

(** ** Observations *)

Definition works_on (c : cid) (th : thread) : bool :=
  match th with
  | Worker _ c' _ => bool_decide (c' = c)
  | _ => false
  end.

(** The workers in flight on [c]. *)
Fixpoint in_flight (c : cid) (ths : list thread) : nat :=
  match ths with
  | [] => 0
  | th :: ths' => (if works_on c th then 1 else 0) + in_flight c ths'
  end.

Definition registered (c : cid) (sys : system) : bool :=
  bool_decide (c ∈ _recv_selector (server sys)).

(** A job for [c] that a loop is about to hand to the pool. *)
Definition poll_pending (c : cid) (p : poll_pc) : nat :=
  match p with
  | PollSubmit c' _ => if bool_decide (c' = c) then 1 else 0
  | _ => 0
  end.

Definition accept_pending (c : cid) (a : accept_pc) : nat :=
  match a with
  | AcceptSubmit c' => if bool_decide (c' = c) then 1 else 0
  | AcceptSelect => 0
  end.

Definition weight (c : cid) (th : thread) : nat :=
  if works_on c th then 1 else 0.

Definition reg (c : cid) (s : Server.t) : nat :=
  if bool_decide (c ∈ _recv_selector s) then 1 else 0.

(** The places where [c] is waited for or worked on: the selector, the
    workers, and the jobs about to be submitted. *)
Definition load (c : cid) (sys : system) : nat :=
  reg c (server sys)
  + in_flight c (threads sys)
  + poll_pending c (poll sys)
  + accept_pending c (accept sys).

(** Every client is in at most one of these places, and a client that
    does not exist yet is in none. *)
Definition inv (sys : system) : Prop :=
  (forall c, load c sys <= 1) /\ (forall c, fresh sys <= c -> load c sys = 0).

(** The registry holds each client once, and only clients that exist. *)
Definition registry_ok (sys : system) : Prop :=
  NoDup (clients (server sys)) /\
  forall c, c ∈ clients (server sys) -> c < fresh sys.

(** ** A thread on its own *)

(** What the server's callbacks answer at the statement [th] is at. *)
Definition answer_for (th : thread) (s : Server.t) : outcome value :=
  match th with
  | Worker k c WCall => callback k s c
  | Worker _ c (WDisconnect DNotify reason) => handle_closed s c reason
  | Caller c DNotify reason => handle_closed s c reason
  | _ => Returns VNone
  end.

(** [th] run without interruption, for at most [fuel] statements. *)
Fixpoint solo (fuel : nat) (th : thread) (s : Server.t) : thread * Server.t :=
  match fuel with
  | O => (th, s)
  | S fuel' =>
      match thread_step th (answer_for th s) s with
      | Some (th', s') => solo fuel' th' s'
      | None => (th, s)
      end
  end.

(** How a method that ran to its end shows as a thread. *)
Definition exit_of (r : result unit) : thread :=
  match r with
  | Ok _ => Exited None
  | Err e => Exited (Some e)
  end.

(** ** Two schedules *)

(** The answer slot of a statement that calls no callback. *)
Definition quiet : outcome value := Returns VNone.

(** Connection 0 is accepted, passes the accept check, is registered,
    becomes readable and is dispatched to a worker (thread 1). *)
Definition dispatch_schedule : list label :=
  [ LAccept;                            (* accept, append to the registry *)
    LAccept;                            (* submit the accept handshake: thread 0 *)
    LThread 0 (Returns (VBool true));   (* handle_incoming answers True *)
    LThread 0 quiet;                    (* the test of l.203 *)
    LThread 0 quiet;                    (* client.accepted = True *)
    LThread 0 quiet;                    (* register *)
    LPoll [0];                          (* select reports connection 0 *)
    LPoll [];                           (* unregister *)
    LPoll [] ].                         (* submit the readable handshake: thread 1 *)

(** Then the readable callback rejects the connection while [stop]
    reaches it in its bulk pass (thread 2), and the two [disconnect]s
    advance in step. *)
Definition race_schedule : list label :=
  dispatch_schedule ++
  [ LThread 1 (Returns (VBool false));  (* handle_readable answers False *)
    LThread 1 quiet;                    (* the test of l.221 *)
    LDisconnect 0 shutting_down;        (* stop: disconnect(client 0, ...) *)
    LThread 1 quiet; LThread 2 quiet;   (* unregister, twice *)
    LThread 1 quiet; LThread 2 quiet;   (* close, twice *)
    LThread 1 quiet; LThread 2 quiet;   (* registry: removed, then absent *)
    LThread 1 (Returns (VBool true));   (* handle_closed(client 0, False) *)
    LThread 2 (Returns (VBool true)) ]. (* handle_closed(client 0, 'Server shutting down') *)

End Sched.

(* ===================================================================== *)
(** * Statements of the specification that the code does not meet *)
(* ===================================================================== *)

Module Claims.
Import Server.

(** "A non-positive timeout blocks indefinitely": with the lock never
    released, a call of [send] with [timeout <= 0] never returns. *)
Definition nonpositive_timeout_waits : Prop :=
  forall (sock : nat -> Client.sock_write) (bytes : list Byte.byte)
         (timeout : Z),
    (timeout <= 0)%Z ->
    Client.send_result (Client.send Client.HeldForever sock bytes timeout)
    = Client.Hangs.

(** "Any failure raised from a user callback is caught at the handshake
    boundary" and becomes a disconnect with [str(e)] as reason. *)
Definition every_callback_failure_disconnects : Prop :=
  forall (k : kind) (s : Server.t) (c : cid) (e : exn),
    callback k s c = Raises e ->
    handshake k c s
    = (emit (call_event k c) >> disconnect (One c) (VStr (exn_str e))) s.

End Claims.

(* ===================================================================== *)
(** * Client: what the reads deliver *)
(* ===================================================================== *)

Module Reads.
Import Client.

(** The bytes the [j]-th call of [socket.recv] hands over when asked for
    [bufsize]; none if it raises. *)
Definition chunk_at (sock : nat -> sock_read) (j : nat) (bufsize : Z)
    : list Byte.byte :=
  match socket_recv (sock j) bufsize with
  | Returns chunk => chunk
  | Raises _ => []
  end.

(** The bytes handed over by the calls whose buffer sizes are [asked], in
    order. *)
Definition handed_over (sock : nat -> sock_read) (asked : list Z)
    : list Byte.byte :=
  concat (imap (chunk_at sock) asked).

End Reads.

(* ===================================================================== *)
(** * Log: the decorator of the methods (l.69-114) *)
(* ===================================================================== *)

Module Log.

(** [self.do] as [__init__] creates it (l.73-76). *)
Definition keys : list string := ["errors"; "enter"; "exit"; "args"].

Definition do_init : gmap string bool :=
  <["errors" := false]> (<["enter" := false]> (<["exit" := false]>
    (<["args" := false]> ∅))).

(** The first loop of [__init__] (l.78-81): the first argument that is
    neither a key of [do] nor ['all'] is refused. *)
Fixpoint check (do : gmap string bool) (args_ : list string) : option exn :=
  match args_ with
  | [] => None
  | i :: rest =>
      if bool_decide (i ∉ dom do) && negb (String.eqb i "all") then
        Some (Exn ValueError (i ++ " is not a valid variable"))
      else check do rest
  end.

(** The second loop (l.83-85), over the keys of [do]. *)
Fixpoint enable (ks : list string) (args_ : list string)
    (do : gmap string bool) : gmap string bool :=
  match ks with
  | [] => do
  | i :: rest =>
      enable rest args_
        (if bool_decide (i ∈ args_) || bool_decide ("all" ∈ args_)
         then <[i := true]> do else do)
  end.

(** The constructor, [Log] applied to the names [args_]. *)
Definition init (args_ : list string) : outcome (gmap string bool) :=
  match check do_init args_ with
  | Some e => Raises e
  | None => Returns (enable keys args_ do_init)
  end.

(** The three calls of [logging] in [wrapped_f]. *)
Inductive record :=
| DebugCalled       (* logging.debug('function ... called with ...') *)
| ErrorExited       (* logging.error('... exited with error: ...') *)
| DebugExited.      (* logging.debug('function ... exited normally') *)

(** [self.do[k]] *)
Definition flag (do : gmap string bool) (k : string) : bool :=
  default false (do !! k).

(** [wrapped_f] (l.88-109) around a function [f] that acts on a state:
    what it answers, the state it leaves and the records it logs.  The
    value of [f] is not returned. *)
Definition wrapped {St A : Type} (do : gmap string bool)
    (f : St -> outcome A * St) (st : St)
    : outcome unit * St * list record :=
  let entered := if flag do "enter" then [DebugCalled] else [] in
  match f st with
  | (Raises e, st') =>
      (Raises e, st',
       entered ++ (if flag do "errors" then [ErrorExited] else []))
  | (Returns _, st') =>
      (Returns tt, st',
       entered ++ (if flag do "exit" then [DebugExited] else []))
  end.

(** A Python [str]: its code points. *)
Definition str := list N.

(** The line boundaries of [str.splitlines]: LF, VT, FF, CR, FS, GS, RS,
    NEL, LS and PS. *)
Definition is_linebreak (c : N) : bool :=
  bool_decide (c ∈ [10; 11; 12; 13; 28; 29; 30; 133; 8232; 8233]%N).

(** [s.splitlines(True)], [line] being the line read so far: CR LF is one
    boundary, and the boundaries are kept. *)
Fixpoint splitlines (s : str) (line : str) : list str :=
  match s with
  | [] => match line with [] => [] | _ => [line] end
  | c :: s' =>
      if is_linebreak c then
        match s' with
        | c' :: s'' =>
            if (c =? 13)%N && (c' =? 10)%N then
              (line ++ [c; c']) :: splitlines s'' []
            else (line ++ [c]) :: splitlines s' []
        | [] => (line ++ [c]) :: splitlines s' []
        end
      else splitlines s' (line ++ [c])
  end.

(** [sep.join(lines)] *)
Fixpoint join (sep : str) (lines : list str) : str :=
  match lines with
  | [] => []
  | [x] => x
  | x :: rest => x ++ sep ++ join sep rest
  end.

(** [_indent_string(string, indentation)] (l.112-114); [' ' * n] is empty
    for [n <= 0]. *)
Definition _indent_string (string : str) (indentation : Z) : str :=
  join (replicate (Z.to_nat indentation) 32%N) (splitlines string []).

End Log.

(* ===================================================================== *)
(** * SocketServer: the loop bodies, [send], and calls in sequence *)
(* ===================================================================== *)

Module Api.
Import Server.

(** [SocketServer.send(client, bytes, timeout)] (l.300-308) on top of
    [Client.send]: what it answers and the server it leaves. *)
Definition send (c : cid) (lk : Client.lock_env)
    (sock : nat -> Client.sock_write) (bytes : list Byte.byte) (timeout : Z)
    (s : Server.t) : Client.io nat * Server.t :=
  match Client.send_result (Client.send lk sock bytes timeout) with
  | Client.Done sent => (Client.Done sent, s)
  | Client.Fails e =>
      match send_after c (Raises e) s with
      | (Ok n, s') => (Client.Done n, s')
      | (Err e', s') => (Client.Fails e', s')
      end
  | Client.Hangs => (Client.Hangs, s)
  | Client.NoFuel => (Client.NoFuel, s)
  end.

(** The [for] loop of [_mainthread_poll_readable] (l.185-190) over the
    events [select] returned, every mask being [EVENT_READ]: the clients
    handed to [start_thread] so far are [jobs]. *)
Fixpoint poll_events (events : list cid) (jobs : list cid) (s : Server.t)
    : result unit * list cid * Server.t :=
  match events with
  | [] => (Ok tt, jobs, s)
  | c :: rest =>
      match sel_unregister c s with
      | (Ok _, s') => poll_events rest (jobs ++ [c]) s'
      | (Err e, s') => (Err e, jobs, s')
      end
  end.

Definition _mainthread_poll_readable (events : list cid) (s : Server.t)
    : result unit * list cid * Server.t :=
  poll_events events [] s.

(** A handshake whose callback answers [o]. *)
Definition handshake_with (k : kind) (c : cid) (o : outcome value) : M unit :=
  emit (call_event k c) >>
  match k with
  | Incoming => accepted_after c o
  | Readable => readable_after c o
  end.

(** An identity no object of the server bears yet. *)
Definition unused (c : cid) (s : Server.t) : bool :=
  bool_decide (heap s !! c = None) && bool_decide (c ∉ clients s)
  && bool_decide (c ∉ _recv_selector s).

(** The body of [_mainthread_accept_clients] up to [start_thread]
    (l.169-172) when [accept] returns: [c] is the new [Client] object. *)
Definition accept_client (c : cid) (s : Server.t) : Server.t :=
  if unused c s then
    set_clients (fun l => l ++ [c])
      (set_heap (fun h => <[c := Client.init]> h) s)
  else s.

(** One call of a method, from its start to its return or its exception. *)
Inductive call :=
| Accept (c : cid)
| Handshake (k : kind) (c : cid) (o : outcome value)
| Disconnect (tg : target) (reason : value)
| Register (c : cid) (silent : bool)
| Unregister (c : cid) (silent : bool)
| Send (c : cid) (o : outcome nat)
| Poll (events : list cid)
| Start
| Stop.

(** The server after the call; an exception is the caller's to handle and
    leaves the server as the method left it. *)
Definition perform (op : call) (s : Server.t) : Server.t :=
  match op with
  | Accept c => accept_client c s
  | Handshake k c o => (handshake_with k c o s).2
  | Disconnect tg reason => (disconnect tg reason s).2
  | Register c silent => (register c silent s).2
  | Unregister c silent => (unregister c silent s).2
  | Send c o => (send_after c o s).2
  | Poll events => (_mainthread_poll_readable events s).2
  | Start => (start s).2
  | Stop => (stop s).2
  end.

(** Calls made one after the other. *)
Definition perform_all (ops : list call) (s : Server.t) : Server.t :=
  foldl (fun s op => perform op s) s ops.

(** The clients a [disconnect] argument holds, left to right. *)
Fixpoint leaves (tg : target) : list cid :=
  match tg with
  | One c => [c]
  | Many l =>
      (fix each (l : list target) : list cid :=
         match l with
         | [] => []
         | i :: l' => leaves i ++ each l'
         end) l
  | Registry | RegistryIter _ => []
  end.

(** The argument holds all its clients itself: neither it nor anything
    nested in it is the registry or an iterator over the registry. *)
Fixpoint held (tg : target) : bool :=
  match tg with
  | One _ => true
  | Many l =>
      (fix each (l : list target) : bool :=
         match l with
         | [] => true
         | i :: l' => held i && each l'
         end) l
  | Registry | RegistryIter _ => false
  end.

(** Of a list, the elements at the even positions 0, 2, 4, ... and those
    at the odd positions. *)
Fixpoint every_other (l : list cid) : list cid :=
  match l with
  | [] => []
  | c :: l' =>
      c :: match l' with
           | [] => []
           | _ :: l'' => every_other l''
           end
  end.

Definition passed_over (l : list cid) : list cid :=
  match l with
  | [] => []
  | _ :: l' => every_other l'
  end.

(** The selector's [ValueError] for a closed socket. *)
Definition invalid_descriptor : exn :=
  Exn ValueError "Invalid file descriptor: -1".

(** The calls [stop] makes once the connections are disconnected, up to
    and including the shutdown of the listening socket. *)
Definition stop_calls : list event :=
  [EvStopSignal AcceptLoop; EvStopSignal PollLoop;
   EvLoopStop AcceptLoop; EvLoopStop PollLoop; EvServerShutdown].

(** A server as [__init__] leaves it, whatever its callbacks and the
    answer of [bind]. *)
Definition fresh_server (s : Server.t) : Prop :=
  _server_socket s = Unbound /\ _recv_selector s = ∅ /\ clients s = [] /\
  heap s = ∅ /\ trace s = [].

(** In calls made in sequence: a closed client is in neither the selector
    nor the registry, the registry holds no client twice, and
    [handle_closed] has been called once for a closed client and never for
    an open one. *)
Definition settled (s : Server.t) : Prop :=
  NoDup (clients s) /\
  forall c,
    (Client.closed (client s c) = true ->
       (c ∉ _recv_selector s) /\ (c ∉ clients s)) /\
    closed_calls c (trace s) = if Client.closed (client s c) then 1 else 0.

End Api.

(** Unfold the methods of [Server] down to the state they compute. *)
Ltac srv_unfold :=
  unfold Server.handshake, Server._subthread_handle_accepted,
    Server._subthread_handle_readable, Server.accepted_after,
    Server.readable_after, Server.disconnect, Server.disconnect_client,
    Server.unregister, Server.register, Server.try_except,
    Server.sel_unregister, Server.sel_register, Server.call_handle_closed,
    Server.notify_closed, Server.remove_from_registry, Server.close,
    Server.set_accepted, Server.emit, Server.modify, Server.gets,
    Server.answer, Server.bind, Server.ret, Server.raise, Server.client in *.

(* ===================================================================== *)
(** * Theorems: the transfer primitives *)
(* ===================================================================== *)

Section Transfer.
Import Client.

(** The loop of [send], started with [total_sent] bytes already out and
    enough fuel for the rest: it ends, a normal end has put every byte on
    the wire, and a write of zero bytes ends it with the broken-connection
    error. *)
Lemma send_loop_spec (sock : nat -> sock_write) (bytes : list Byte.byte) :
  forall fuel call total_sent out,
    total_sent <= length bytes ->
    length bytes - total_sent <= fuel ->
    out = take total_sent bytes ->
    let '(r, out', calls) :=
      send_loop fuel sock call bytes total_sent (length bytes) out in
    r <> NoFuel /\ r <> Hangs /\ call <= calls /\
    (forall n, r = Done n -> n = length bytes /\ out' = bytes) /\
    (forall j, call <= j < calls -> sock j = Room 0 -> r = Fails broken_on_send).
Proof.
  induction fuel as [|fuel IH]; intros call total_sent out Hle Hfuel Hout;
    cbn [send_loop].
  - destruct (Nat.ltb_spec total_sent (length bytes)) as [Hlt|Hge]; [lia|].
    split_and!; [done | done | lia | | lia].
    intros n [= <-]. split; [lia|]. subst out. rewrite take_ge; [done | lia].
  - destruct (Nat.ltb_spec total_sent (length bytes)) as [Hlt|Hge].
    + destruct (sock call) as [room|e] eqn:Hsock; cbn [socket_send].
      * destruct (Nat.eqb_spec (Nat.min room (length (drop total_sent bytes))) 0)
          as [Hz|Hnz].
        -- split_and!; [done | done | lia | done | done].
        -- rewrite length_drop in Hnz |- *.
           set (n := Nat.min room (length bytes - total_sent)) in *.
           specialize (IH (S call) (total_sent + n)
                         (out ++ take n (drop total_sent bytes))).
           destruct (send_loop fuel sock (S call) bytes (total_sent + n)
                       (length bytes) (out ++ take n (drop total_sent bytes)))
             as [[r out'] calls].
           destruct IH as (Hf & Hh & Hc & Hd & Hz); [lia | lia | |].
           { subst out. apply take_take_drop. }
           split_and!; [done | done | lia | done |].
           intros j Hj Hroom.
           destruct (decide (j = call)) as [->|Hne].
           ++ rewrite Hsock in Hroom. inversion Hroom; subst room.
              subst n. rewrite Nat.min_0_l in Hnz. done.
           ++ apply (Hz j); [lia | done].
      * split_and!; [done | done | lia | done |].
        intros j Hj Hroom. assert (j = call) as -> by lia. congruence.
    + split_and!; [done | done | lia | | lia].
      intros n [= <-]. split; [lia|]. subst out. rewrite take_ge; [done | lia].
Qed.

(** With enough fuel for the rest and every write taking at least one
    byte, the loop ends normally with the whole payload on the wire. *)
Lemma send_loop_delivers (sock : nat -> sock_write) (bytes : list Byte.byte) :
  forall fuel call total_sent out,
    total_sent <= length bytes ->
    length bytes - total_sent <= fuel ->
    out = take total_sent bytes ->
    (forall j, call <= j < call + (length bytes - total_sent) ->
       exists room, sock j = Room room /\ 0 < room) ->
    exists calls,
      send_loop fuel sock call bytes total_sent (length bytes) out
      = (Done (length bytes), bytes, calls)
      /\ calls <= call + (length bytes - total_sent).
Proof.
  induction fuel as [|fuel IH]; intros call total_sent out Hle Hfuel Hout Hroom;
    cbn [send_loop].
  - destruct (Nat.ltb_spec total_sent (length bytes)) as [Hlt|Hge]; [lia|].
    assert (total_sent = length bytes) as -> by lia.
    exists call. subst out. rewrite take_ge by lia. split; [done | lia].
  - destruct (Nat.ltb_spec total_sent (length bytes)) as [Hlt|Hge].
    + destruct (Hroom call) as (room & -> & Hpos); [lia|]. cbn [socket_send].
      rewrite length_drop.
      set (n := Nat.min room (length bytes - total_sent)).
      assert (0 < n) as Hn by (subst n; lia).
      destruct (Nat.eqb_spec n 0) as [|_]; [lia|].
      destruct (IH (S call) (total_sent + n)
                  (out ++ take n (drop total_sent bytes)))
        as (calls & -> & Hcalls); [subst n; lia | subst n; lia | | |].
      * subst out. apply take_take_drop.
      * intros j Hj. apply Hroom. lia.
      * exists calls. split; [done | lia].
    + assert (total_sent = length bytes) as -> by lia.
      exists call. subst out. rewrite take_ge by lia. split; [done | lia].
Qed.

(** The writes before the first one that takes nothing take [rooms]: the
    loop raises the broken-connection error at that write, with the bytes
    taken so far on the wire. *)
Lemma send_loop_breaks (sock : nat -> sock_write) (bytes : list Byte.byte) :
  forall rooms fuel call total_sent out,
    length bytes - total_sent <= fuel ->
    out = take total_sent bytes ->
    (forall i room, rooms !! i = Some room ->
       sock (call + i) = Room room /\ 0 < room) ->
    total_sent + sum_list rooms < length bytes ->
    sock (call + length rooms) = Room 0 ->
    send_loop fuel sock call bytes total_sent (length bytes) out
    = (Fails broken_on_send, take (total_sent + sum_list rooms) bytes,
       S (call + length rooms)).
Proof.
  induction rooms as [|room rooms IH];
    intros fuel call total_sent out Hfuel Hout Hrooms Hsum Hzero.
  - change (sum_list []) with 0 in *. cbn [length] in *.
    destruct fuel as [|fuel]; [lia|]. cbn [send_loop].
    destruct (Nat.ltb_spec total_sent (length bytes)) as [_|]; [|lia].
    rewrite Nat.add_0_r in Hzero. rewrite Hzero. cbn.
    by rewrite !Nat.add_0_r, Hout.
  - change (sum_list (room :: rooms)) with (room + sum_list rooms) in *.
    cbn [length] in *.
    destruct fuel as [|fuel]; [lia|]. cbn [send_loop].
    destruct (Nat.ltb_spec total_sent (length bytes)) as [_|]; [|lia].
    destruct (Hrooms 0 room eq_refl) as [Hsock Hpos].
    rewrite Nat.add_0_r in Hsock. rewrite Hsock. cbn [socket_send].
    rewrite length_drop, Nat.min_l by lia.
    destruct (Nat.eqb_spec room 0) as [|_]; [lia|].
    rewrite (IH fuel (S call) (total_sent + room)
               (out ++ take room (drop total_sent bytes))).
    + do 2 f_equal; [f_equal; lia | lia].
    + lia.
    + subst out. apply take_take_drop.
    + intros i r Hi. replace (S call + i) with (call + S i) by lia.
      by apply Hrooms.
    + lia.
    + by replace (S call + length rooms) with (call + S (length rooms)) by lia.
Qed.

(** C5.  [Client.send] of N bytes ends (or waits for the lock); when it
    returns, it returns N with all N bytes on the wire, or 0 because the
    lock was not acquired in time and then nothing was written: never a
    count strictly between.  With the lock acquired and every write taking
    at least one byte it does return N, the payload delivered in at most N
    writes; when the lock is not acquired in time it does return 0.  A
    write of zero bytes by the socket makes it raise the broken-connection
    error: after writes that took [rooms], fewer than N bytes in all, the
    next write is made, and if it takes nothing [send] raises, with those
    bytes on the wire and no count returned. *)
Theorem send_all_or_nothing (lk : lock_env) (sock : nat -> sock_write)
    (bytes : list Byte.byte) (timeout : Z) :
  let r := send lk sock bytes timeout in
  send_result r <> NoFuel /\
  (forall n, send_result r = Done n ->
     (n = length bytes /\ wire r = bytes /\ Lock_acquire lk timeout = Acquired)
     \/ (n = 0 /\ wire r = [] /\ Lock_acquire lk timeout = TimedOut)) /\
  (forall j, j < send_calls r -> sock j = Room 0 ->
     send_result r = Fails broken_on_send) /\
  (Lock_acquire lk timeout = Acquired ->
     (forall j, j < length bytes -> exists room, sock j = Room room /\ 0 < room) ->
     send_result r = Done (length bytes) /\ wire r = bytes /\
     send_calls r <= length bytes) /\
  (Lock_acquire lk timeout = TimedOut ->
     send_result r = Done 0 /\ wire r = [] /\ send_calls r = 0) /\
  (Lock_acquire lk timeout = Acquired ->
     forall rooms,
       (forall i room, rooms !! i = Some room ->
          sock i = Room room /\ 0 < room) ->
       sum_list rooms < length bytes ->
       sock (length rooms) = Room 0 ->
       send_result r = Fails broken_on_send /\
       wire r = take (sum_list rooms) bytes /\
       send_calls r = S (length rooms)).
Proof.
  cbn zeta. split_and!.
  - unfold send. destruct (Lock_acquire lk timeout); cbn; try done.
    pose proof (send_loop_spec sock bytes (length bytes) 0 0 []) as H.
    destruct (send_loop (length bytes) sock 0 bytes 0 (length bytes) [])
      as [[r out] calls]; cbn.
    destruct H as (Hf & _); [lia | lia | done | done].
  - unfold send. destruct (Lock_acquire lk timeout) eqn:Hacq; cbn; try done.
    + pose proof (send_loop_spec sock bytes (length bytes) 0 0 []) as H.
      destruct (send_loop (length bytes) sock 0 bytes 0 (length bytes) [])
        as [[r out] calls]; cbn.
      destruct H as (_ & _ & _ & Hd & _); [lia | lia | done |].
      intros n Hn. left. destruct (Hd n Hn). done.
    + intros n [= <-]. right. done.
  - unfold send. destruct (Lock_acquire lk timeout) eqn:Hacq; cbn; try lia.
    pose proof (send_loop_spec sock bytes (length bytes) 0 0 []) as H.
    destruct (send_loop (length bytes) sock 0 bytes 0 (length bytes) [])
      as [[r out] calls]; cbn.
    destruct H as (_ & _ & _ & _ & Hz); [lia | lia | done |].
    intros j Hj. apply (Hz j). lia.
  - intros Hacq Hroom. unfold send. rewrite Hacq.
    destruct (send_loop_delivers sock bytes (length bytes) 0 0 [])
      as (calls & -> & Hcalls); [lia | lia | done | | cbn; split_and!; [done | done | lia]].
    intros j Hj. apply Hroom. lia.
  - intros Hacq. unfold send. by rewrite Hacq.
  - intros Hacq rooms Hrooms Hsum Hzero. unfold send. rewrite Hacq.
    rewrite (send_loop_breaks sock bytes rooms (length bytes) 0 0 []);
      [done | lia | done | done | done | done].
Qed.

(** Two writes of 2 and 1 bytes deliver a payload of 3, and a payload of
    3 is not delivered when the second write takes nothing. *)
Lemma send_all_or_nothing_witness :
  let bytes := ["a"; "b"; "c"]%byte in
  let delivered :=
    send (FreeAfter 0) (fun n => if n =? 0 then Room 2 else Room 7) bytes (-1) in
  let broken :=
    send (FreeAfter 0) (fun n => if n =? 0 then Room 2 else Room 0) bytes (-1) in
  (send_result delivered = Done 3 /\ wire delivered = bytes /\
   send_calls delivered <= 3) /\
  (send_result broken = Fails broken_on_send /\
   wire broken = ["a"; "b"]%byte /\ send_calls broken = 2).
Proof.
  cbn zeta. split.
  - destruct (send_all_or_nothing (FreeAfter 0)
                (fun n => if n =? 0 then Room 2 else Room 7)
                ["a"; "b"; "c"]%byte (-1)) as (_ & _ & _ & Hlive & _).
    apply Hlive; [reflexivity|]. intros [|j] _; cbn; eauto with lia.
  - destruct (send_all_or_nothing (FreeAfter 0)
                (fun n => if n =? 0 then Room 2 else Room 0)
                ["a"; "b"; "c"]%byte (-1)) as (_ & _ & _ & _ & _ & Hbreak).
    apply (Hbreak eq_refl [2]); [| cbn; lia | reflexivity].
    intros [|i] room Hi; [|done]. injection Hi as <-. split; [reflexivity | lia].
Defined.

(** Two writes of 2 and 1 bytes deliver a payload of 3. *)
Example send_three_bytes :
  let r := send (FreeAfter 0)
             (fun n => if n =? 0 then Room 2 else Room 7)
             ["a"; "b"; "c"]%byte (-1) in
  send_result r = Done 3 /\ wire r = ["a"; "b"; "c"]%byte /\ send_calls r = 2.
Proof. repeat split. Qed.

(** The peer goes away after 2 of 3 bytes: no count is returned. *)
Example send_broken_midway :
  send_result (send (FreeAfter 0)
                 (fun n => if n =? 0 then Room 2 else Room 0)
                 ["a"; "b"; "c"]%byte (-1))
  = Fails broken_on_send.
Proof. reflexivity. Qed.

(** C4, as stated, fails at [timeout = 0]: the lock is tried once, and the
    call returns 0 at once instead of waiting. *)
Lemma send_timeout_zero_returns :
  send_result (send HeldForever (fun _ => Room 1) ["a"]%byte 0) = Done 0
  /\ ~ Claims.nonpositive_timeout_waits.
Proof.
  split; [reflexivity |].
  intros H. specialize (H (fun _ => Room 1) ["a"]%byte 0%Z ltac:(lia)).
  discriminate H.
Qed.

(** The conventions of the timeout, with the lock busy. *)
Example send_timeouts :
  let sock := fun _ : nat => Room 1 in
  send_result (send HeldForever sock ["a"]%byte (-1)) = Hangs /\
  send_result (send (FreeAfter 5) sock ["a"]%byte 3) = Done 0 /\
  send_result (send (FreeAfter 5) sock ["a"]%byte 5) = Done 1 /\
  send_result (send (FreeAfter 5) sock ["a"]%byte (-2))
  = Fails (Exn ValueError "timeout value must be positive") /\
  send_result (send (FreeAfter 0) sock ["a"]%byte 10000000000)
  = Fails (Exn OverflowError "timestamp too large to convert to C _PyTime_t").
Proof. repeat split. Qed.

(** [Lock.acquire] by the range of its timeout. *)
Lemma Lock_acquire_cases (lk : lock_env) (timeout : Z) :
  (timeout = (-1)%Z ->
     Lock_acquire lk timeout
     = match lk with FreeAfter _ => Acquired | HeldForever => Waits end) /\
  ((- TIMEOUT_MAX <= timeout < 0)%Z -> timeout <> (-1)%Z ->
     Lock_acquire lk timeout
     = Rejected (Exn ValueError "timeout value must be positive")) /\
  ((0 <= timeout <= TIMEOUT_MAX)%Z ->
     Lock_acquire lk timeout
     = match lk with
       | FreeAfter d => if (d <=? timeout)%Z then Acquired else TimedOut
       | HeldForever => TimedOut
       end) /\
  ((timeout < - TIMEOUT_MAX \/ TIMEOUT_MAX < timeout)%Z ->
     Lock_acquire lk timeout
     = Rejected (Exn OverflowError
                   "timestamp too large to convert to C _PyTime_t")).
Proof.
  unfold Lock_acquire, TIMEOUT_MAX.
  destruct (Z.ltb_spec 9223372036 (Z.abs timeout)),
    (Z.eqb_spec timeout (-1)), (Z.ltb_spec timeout 0);
    split_and!; intros; try done; lia.
Qed.

(** C4, amended.  The unbounded wait is the timeout -1 alone: then [send]
    never gives up on the lock, and waits for ever if it is never
    released.  Any other negative timeout, down to [-TIMEOUT_MAX], is
    refused with [ValueError]; a timeout from 0 to [TIMEOUT_MAX] bounds
    the wait: the lock is acquired if it is released within the timeout,
    and is given up otherwise; a timeout beyond [TIMEOUT_MAX] on either
    side is refused with [OverflowError] before anything is written.
    Whenever the lock is not acquired within the timeout, [send] returns
    0 and has written nothing. *)
Theorem send_timeout_convention (lk : lock_env) (sock : nat -> sock_write)
    (bytes : list Byte.byte) (timeout : Z) :
  let r := send lk sock bytes timeout in
  (timeout = (-1)%Z ->
     Lock_acquire lk timeout <> TimedOut /\
     (lk = HeldForever -> send_result r = Hangs)) /\
  ((- TIMEOUT_MAX <= timeout < 0)%Z -> timeout <> (-1)%Z ->
     exists msg, send_result r = Fails (Exn ValueError msg)) /\
  ((0 <= timeout <= TIMEOUT_MAX)%Z ->
     send_result r <> Hangs /\
     (lk = HeldForever -> send_result r = Done 0) /\
     (forall d, lk = FreeAfter d ->
        if (d <=? timeout)%Z then Lock_acquire lk timeout = Acquired
        else send_result r = Done 0)) /\
  ((timeout < - TIMEOUT_MAX \/ TIMEOUT_MAX < timeout)%Z ->
     (exists msg, send_result r = Fails (Exn OverflowError msg)) /\
     wire r = [] /\ send_calls r = 0) /\
  (Lock_acquire lk timeout = TimedOut ->
     send_result r = Done 0 /\ wire r = [] /\ send_calls r = 0).
Proof.
  cbn zeta.
  destruct (Lock_acquire_cases lk timeout) as (Hdef & Hneg & Hpos & Hbig).
  split_and!.
  - intros Hm. rewrite (Hdef Hm). unfold send. rewrite (Hdef Hm).
    destruct lk; split; try done.
  - intros Hr Hne. unfold send. rewrite (Hneg Hr Hne). eauto.
  - intros Hr. specialize (Hpos Hr). unfold send. rewrite Hpos.
    destruct lk as [d|].
    + destruct (Z.leb_spec d timeout) as [Hle|Hgt].
      * pose proof (send_loop_spec sock bytes (length bytes) 0 0 []) as Hl.
        destruct (send_loop (length bytes) sock 0 bytes 0 (length bytes) [])
          as [[r out] calls]; cbn.
        destruct Hl as (_ & Hh & _); [lia | lia | done |].
        split_and!; [done | done |]. intros d' [= <-].
        destruct (Z.leb_spec d timeout); [done | lia].
      * cbn. split_and!; [done | done |]. intros d' [= <-].
        destruct (Z.leb_spec d timeout); [lia | done].
    + cbn. split_and!; [done | done | done].
  - intros Hr. unfold send. rewrite (Hbig Hr). cbn. eauto.
  - intros H. unfold send. rewrite H. done.
Qed.




(** The peer closes after 3 of 5 bytes: no short read is returned. *)
Example recv_broken_midway :
  recv_result (recv (fun n => if n =? 0 then Arrived ["a"; "b"; "c"]%byte
                              else Arrived [])
                 5 true)
  = Fails broken_on_recv.
Proof. reflexivity. Qed.

End Transfer.

(* ===================================================================== *)
(** * Theorems: disconnect, the handshakes, stop *)
(* ===================================================================== *)

Section Protocol.
Import Server.

Lemma list_remove_notin (c : cid) (l : list cid) :
  c ∉ l -> list_remove c l = l.
Proof.
  induction l as [|x l IH]; [done|]. intros Hn. cbn.
  rewrite bool_decide_false by set_solver. f_equal. apply IH. set_solver.
Qed.

Lemma list_remove_head (c : cid) (l : list cid) : list_remove c (c :: l) = l.
Proof. cbn. by rewrite bool_decide_true. Qed.

Lemma same_setup_refl (s : Server.t) : same_setup s s.
Proof. by repeat split. Qed.

Lemma same_setup_trans (s1 s2 s3 : Server.t) :
  same_setup s1 s2 -> same_setup s2 s3 -> same_setup s1 s3.
Proof.
  intros (H1 & H2 & H3 & H4) (K1 & K2 & K3 & K4).
  repeat split; congruence.
Qed.

(** [disconnect] of an open client: the four steps in order, whatever the
    registration and the registry say; only [handle_closed] can make it
    raise. *)
Lemma disconnect_open (s : Server.t) (c : cid) (reason : value) :
  Client.closed (client s c) = false ->
  exists s',
    disconnect (One c) reason s
    = (match handle_closed s c reason with
       | Returns _ => Ok tt
       | Raises e => Err e
       end, s') /\
    trace s' = trace s ++ disconnect_calls c reason (bool_decide (c ∈ clients s)) /\
    _recv_selector s' = _recv_selector s ∖ {[c]} /\
    clients s' = list_remove c (clients s) /\
    client s' c = Client.mark_closed (client s c) /\
    (forall c', c' <> c -> client s' c' = client s c') /\
    _server_socket s' = _server_socket s /\
    same_setup s s'.
Proof.
  intros Hopen. srv_unfold. cbn.
  destruct (bool_decide_reflect (c ∈ _recv_selector s)) as [Hreg|Hreg]; cbn;
    rewrite ?Hopen; cbn;
    destruct (bool_decide_reflect (c ∈ clients s)) as [Hin|Hin]; cbn;
    destruct (handle_closed s c reason); cbn;
    (eexists; split; [reflexivity|]); cbn;
    rewrite ?lookup_insert_eq, ?list_remove_notin by done;
    rewrite <- ?app_assoc; cbn;
    (split_and!; [done | set_solver | done | done | | done | by repeat split]);
    intros c' Hne; by rewrite lookup_insert_ne.
Qed.

(** [disconnect] of a closed client that is not registered stops at its
    first step: the selector raises [ValueError], which [unregister] does
    not pass over. *)
Lemma disconnect_closed (s : Server.t) (c : cid) (reason : value) :
  Client.closed (client s c) = true ->
  c ∉ _recv_selector s ->
  disconnect (One c) reason s
  = (Err (Exn ValueError "Invalid file descriptor: -1"),
     log (EvSelUnregister c) s).
Proof.
  intros Hclosed Hreg. srv_unfold. cbn.
  rewrite bool_decide_false by done. by rewrite Hclosed.
Qed.

(** No [disconnect] adds a key to the selector. *)
Lemma disconnect_selector (s : Server.t) (c : cid) (reason : value) :
  _recv_selector (disconnect (One c) reason s).2 ⊆ _recv_selector s.
Proof.
  destruct (Client.closed (client s c)) eqn:Hc.
  - destruct (decide (c ∈ _recv_selector s)) as [Hreg|Hreg].
    + srv_unfold. cbn. rewrite bool_decide_true by done. cbn.
      destruct (bool_decide (c ∈ clients s)); cbn;
        destruct (handle_closed s c reason); cbn; set_solver.
    + by rewrite disconnect_closed.
  - destruct (disconnect_open s c reason Hc) as (s' & -> & _ & Hsel & _).
    cbn. rewrite Hsel. set_solver.
Qed.

(** ** Bulk disconnect and [stop] *)

Lemma disconnect_many_cons (i : target) (l : list target) (reason : value) :
  disconnect (Many (i :: l)) reason
  = (disconnect i reason >> disconnect (Many l) reason).
Proof. reflexivity. Qed.


(** The bulk pass over a snapshot of the registry, every client of which is
    live and whose close notification returns: each client in turn goes
    through the four steps, and the registry ends empty. *)
Lemma disconnect_registry (reason : value) :
  forall (l : list cid) (s : Server.t),
    clients s = l ->
    NoDup l ->
    (forall c, c ∈ l -> Client.closed (client s c) = false) ->
    (forall c, c ∈ l -> exists v, handle_closed s c reason = Returns v) ->
    exists s',
      disconnect (Many (One <$> l)) reason s = (Ok tt, s') /\
      trace s' = trace s ++ flat_map (fun c => disconnect_calls c reason true) l /\
      clients s' = [] /\
      _recv_selector s' = _recv_selector s ∖ list_to_set l /\
      (forall c, c ∈ l -> Client.closed (client s' c) = true) /\
      (forall c, c ∉ l -> client s' c = client s c) /\
      _server_socket s' = _server_socket s /\
      same_setup s s'.
Proof.
  induction l as [|c l IH]; intros s Hreg Hnd Hopen Hret.
  - exists s. cbn. rewrite app_nil_r.
    split_and!; try done; set_solver.
  - apply NoDup_cons in Hnd as [Hc Hnd].
    destruct (disconnect_open s c reason) as
      (s1 & Hrun & Htr & Hsel & Hcl & Hcc & Hoth & Hsock & Hset);
      [apply Hopen; set_solver|].
    destruct (Hret c) as [v Hv]; [set_solver|]. rewrite Hv in Hrun.
    rewrite Hreg, list_remove_head in Hcl.
    rewrite Hreg, bool_decide_true in Htr by set_solver.
    destruct (IH s1)
      as (s' & Hrun' & Htr' & Hcl' & Hsel' & Hcc' & Hoth' & Hsock' & Hset');
      [done | done | | |].
    { intros c' Hc'. rewrite Hoth; [apply Hopen; set_solver | set_solver]. }
    { intros c' Hc'. destruct Hset as (_ & _ & -> & _). apply Hret. set_solver. }
    exists s'. rewrite fmap_cons, disconnect_many_cons.
    unfold bind at 1. rewrite Hrun.
    split_and!; [done | | done | | | | congruence | by eapply same_setup_trans].
    + rewrite Htr', Htr. cbn [flat_map]. by rewrite <- !app_assoc.
    + rewrite Hsel', Hsel. set_solver.
    + intros c' [->|Hc']%elem_of_cons; [|by apply Hcc'].
      by rewrite Hoth', Hcc.
    + intros c' Hc'. rewrite Hoth', Hoth; set_solver.
Qed.

(** C7.  [stop()] on a listening server whose registry holds live
    connections, the close notification returning for each: every
    connection of the registry, in registry order, is unregistered, closed,
    removed and notified with "Server shutting down"; only then are the two
    loops signalled, then joined; the listening socket is shut down and
    closed last.  The registry ends empty and [stop()] returns. *)
Theorem stop_disconnects_then_closes (s : Server.t) :
  NoDup (clients s) ->
  (forall c, c ∈ clients s -> Client.closed (client s c) = false) ->
  (forall c, c ∈ clients s ->
     exists v, handle_closed s c shutting_down = Returns v) ->
  _server_socket s = Listening ->
  exists s',
    stop s = (Ok tt, s') /\
    trace s' =
      trace s
      ++ flat_map (fun c => disconnect_calls c shutting_down true) (clients s)
      ++ [EvStopSignal AcceptLoop; EvStopSignal PollLoop;
          EvLoopStop AcceptLoop; EvLoopStop PollLoop;
          EvServerShutdown; EvServerClose] /\
    clients s' = [] /\
    (forall c, c ∈ clients s ->
       Client.closed (client s' c) = true /\ c ∉ _recv_selector s') /\
    _server_socket s' = ListenerClosed.
Proof.
  intros Hnd Hopen Hret Hlisten.
  destruct (disconnect_registry shutting_down (clients s) s)
    as (s1 & Hrun & Htr & Hcl & Hsel & Hcc & _ & Hsock & _); try done.
  unfold stop. unfold bind at 1. cbn [gets id].
  unfold bind at 1. rewrite Hrun.
  unfold server_shutdown, server_close, emit, modify, gets, bind. cbn.
  rewrite Hsock, Hlisten. cbn.
  eexists. split; [reflexivity|]. cbn.
  split_and!; [| done | | done].
  - rewrite Htr. by rewrite <- !app_assoc.
  - intros c Hc. split; [by apply Hcc|]. rewrite Hsel. set_solver.
Qed.

Lemma stop_disconnects_then_closes_witness :
  exists s',
    stop three_clients = (Ok tt, s') /\
    trace s' =
      trace three_clients
      ++ flat_map (fun c => disconnect_calls c shutting_down true)
           (clients three_clients)
      ++ [EvStopSignal AcceptLoop; EvStopSignal PollLoop;
          EvLoopStop AcceptLoop; EvLoopStop PollLoop;
          EvServerShutdown; EvServerClose] /\
    clients s' = [] /\
    (forall c, c ∈ clients three_clients ->
       Client.closed (client s' c) = true /\ c ∉ _recv_selector s') /\
    _server_socket s' = ListenerClosed.
Proof.
  apply (stop_disconnects_then_closes three_clients).
  - cbn. repeat constructor; set_solver.
  - intros c _. reflexivity.
  - intros c _. by exists (VBool true).
  - reflexivity.
Defined.

(** The notifications of that run: one per connection, each before the
    first stop signal. *)
Example stop_three_clients_trace :
  trace (stop three_clients).2 =
    [EvSelUnregister 0; EvSockShutdown 0; EvSockClose 0; EvRegistryRemove 0;
     EvHandleClosed 0 shutting_down;
     EvSelUnregister 1; EvSockShutdown 1; EvSockClose 1; EvRegistryRemove 1;
     EvHandleClosed 1 shutting_down;
     EvSelUnregister 2; EvSockShutdown 2; EvSockClose 2; EvRegistryRemove 2;
     EvHandleClosed 2 shutting_down;
     EvStopSignal AcceptLoop; EvStopSignal PollLoop;
     EvLoopStop AcceptLoop; EvLoopStop PollLoop;
     EvServerShutdown; EvServerClose].
Proof. vm_compute. reflexivity. Qed.

(** ** The handshakes *)

(** A handshake is the call of its callback followed by the decision on
    the answer. *)
Lemma handshake_unfold (k : kind) (c : cid) (s : Server.t) :
  handshake k c s
  = match k with
    | Incoming => accepted_after c (handle_incoming s c) (log (call_event k c) s)
    | Readable => readable_after c (handle_readable s c) (log (call_event k c) s)
    end.
Proof. by destruct k. Qed.

(** What a [disconnect] decided by a handshake does to an open client. *)
Lemma handshake_disconnect_open (k : kind) (s : Server.t) (c : cid)
    (reason : value) :
  Client.closed (client s c) = false ->
  exists s',
    (emit (call_event k c) >> disconnect (One c) reason) s
    = (match handle_closed s c reason with
       | Returns _ => Ok tt
       | Raises e => Err e
       end, s') /\
    trace s' = trace s ++ call_event k c
                 :: disconnect_calls c reason (bool_decide (c ∈ clients s)) /\
    clients s' = list_remove c (clients s) /\
    Client.closed (client s' c) = true /\
    c ∉ _recv_selector s'.
Proof.
  intros Hopen.
  destruct (disconnect_open (log (call_event k c) s) c reason Hopen)
    as (s' & Hrun & Htr & Hsel & Hcl & Hcc & _).
  exists s'. unfold bind, emit, modify. cbn in *.
  split_and!; [done | | done | by rewrite Hcc | rewrite Hsel; set_solver].
  rewrite Htr. by rewrite <- app_assoc.
Qed.

Lemma is_True_spec (v : value) : is_True v = true <-> v = VBool true.
Proof. destruct v as [|[]| |]; cbn; split; congruence. Qed.

(** The handshake of an open, unregistered client whose callback answers
    [True]: the client is registered (and marked accepted by the accept
    handshake) and nothing else happens. *)
Lemma handshake_registers (k : kind) (s : Server.t) (c : cid) :
  callback k s c = Returns (VBool true) ->
  Client.closed (client s c) = false ->
  c ∉ _recv_selector s ->
  exists s',
    handshake k c s = (Ok tt, s') /\
    _recv_selector s' = _recv_selector s ∪ {[c]} /\
    trace s' = trace s ++ [call_event k c; EvSelRegister c] /\
    clients s' = clients s /\
    client s' c = match k with
                  | Incoming => Client.mark_accepted (client s c)
                  | Readable => client s c
                  end.
Proof.
  intros Hcb Hopen Hreg. rewrite handshake_unfold.
  destruct k; cbn in Hcb; rewrite Hcb; srv_unfold; cbn; rewrite Hopen; cbn;
    rewrite bool_decide_false by done; cbn;
    rewrite ?lookup_insert_eq; cbn; rewrite ?Hopen;
    (eexists; split; [reflexivity|]); cbn;
    rewrite ?lookup_insert_eq, <- ?app_assoc; done.
Qed.

(** Any other outcome of the decision is the call [disconnect(client,
    value)]. *)
Lemma handshake_rejects (k : kind) (s : Server.t) (c : cid) (v : value) :
  callback k s c = Returns v ->
  is_True v && negb (Client.closed (client s c)) = false ->
  handshake k c s = (emit (call_event k c) >> disconnect (One c) v) s.
Proof.
  intros Hcb Hno. rewrite handshake_unfold.
  destruct k; cbn in Hcb; rewrite Hcb;
    unfold accepted_after, readable_after, bind at 1, gets; cbn [id];
    change (client (log _ s) c) with (client s c); rewrite Hno; done.
Qed.

(** C9.  The accept handshake of a connection not yet registered, the
    callback having returned [v]: if [v] is [True] and the connection is
    not closed, then, the keys of the selector being open clients, the
    connection is marked accepted and registered, and nothing else
    happens; in every other case the handshake is [disconnect(client,
    v)], which for an open connection unregisters, closes, removes and
    notifies it with [v] as the reason. *)
Theorem accept_handshake_decision (s : Server.t) (c : cid) (v : value) :
  handle_incoming s c = Returns v ->
  c ∉ _recv_selector s ->
  if is_True v && negb (Client.closed (client s c)) then
    selector_keys_open s ->
    exists s',
      _subthread_handle_accepted c s = (Ok tt, s') /\
      Client.accepted (client s' c) = true /\
      Client.closed (client s' c) = false /\
      _recv_selector s' = _recv_selector s ∪ {[c]} /\
      clients s' = clients s /\
      trace s' = trace s ++ [EvHandleIncoming c; EvSelRegister c]
  else
    _subthread_handle_accepted c s
    = (emit (EvHandleIncoming c) >> disconnect (One c) v) s /\
    (Client.closed (client s c) = false ->
     exists s',
       _subthread_handle_accepted c s
       = (match handle_closed s c v with
          | Returns _ => Ok tt
          | Raises e => Err e
          end, s') /\
       trace s' = trace s ++ EvHandleIncoming c
                    :: disconnect_calls c v (bool_decide (c ∈ clients s)) /\
       clients s' = list_remove c (clients s) /\
       Client.closed (client s' c) = true /\
       c ∉ _recv_selector s').
Proof.
  intros Hcb Hreg.
  destruct (is_True v && negb (Client.closed (client s c))) eqn:Hdec.
  - apply andb_true_iff in Hdec as [->%is_True_spec Hopen%negb_true_iff].
    intros _.
    destruct (handshake_registers Incoming s c Hcb Hopen Hreg)
      as (s' & Hrun & Hsel & Htr & Hcl & Hcc).
    exists s'. rewrite Hcc. cbn. by rewrite Hopen.
  - pose proof (handshake_rejects Incoming s c v Hcb Hdec) as Hrun.
    cbn [handshake call_event] in Hrun. split; [done|].
    intros Hopen. rewrite Hrun.
    apply (handshake_disconnect_open Incoming s c v Hopen).
Qed.

(** Connection 2 of [three_clients] passes the default accept check. *)
Lemma accept_handshake_decision_witness :
  exists s',
    _subthread_handle_accepted 2 three_clients = (Ok tt, s') /\
    Client.accepted (client s' 2) = true /\
    Client.closed (client s' 2) = false /\
    _recv_selector s' = _recv_selector three_clients ∪ {[2]} /\
    clients s' = clients three_clients /\
    trace s' = trace three_clients ++ [EvHandleIncoming 2; EvSelRegister 2].
Proof.
  assert (2 ∉ _recv_selector three_clients) as Hreg by (cbn; set_solver).
  assert (selector_keys_open three_clients) as Hkeys by (intros c _; reflexivity).
  exact (accept_handshake_decision three_clients 2 (VBool true)
           eq_refl Hreg Hkeys).
Defined.

(** The callback answers "bad handshake": the connection is closed, leaves
    the registry, and [handle_closed] receives that string. *)
Example accept_handshake_rejection :
  let s := set_handle_incoming (fun _ => Returns (VStr "bad handshake"))
             three_clients in
  let '(r, s') := _subthread_handle_accepted 2 s in
  r = Ok tt /\ clients s' = [0; 1] /\ Client.closed (client s' 2) = true /\
  trace s' = [EvHandleIncoming 2; EvSelUnregister 2; EvSockShutdown 2;
              EvSockClose 2; EvRegistryRemove 2;
              EvHandleClosed 2 (VStr "bad handshake")].
Proof. vm_compute. done. Qed.

(** C10.  In both handshakes, the callback having returned [v]: the
    connection enters the selector only if [v] is exactly [True] and its
    closed flag is false, and then, the keys of the selector being open
    clients, it does enter; for every other [v], truthy or not, the
    handshake is [disconnect(client, v)], and an open connection is
    closed and notified with [v] itself as the reason. *)
Theorem register_only_on_exactly_True (k : kind) (s : Server.t) (c : cid)
    (v : value) :
  callback k s c = Returns v ->
  c ∉ _recv_selector s ->
  (c ∈ _recv_selector (handshake k c s).2 ->
     v = VBool true /\ Client.closed (client s c) = false) /\
  (v = VBool true -> Client.closed (client s c) = false ->
     selector_keys_open s ->
     (handshake k c s).1 = Ok tt /\
     c ∈ _recv_selector (handshake k c s).2 /\
     trace (handshake k c s).2 = trace s ++ [call_event k c; EvSelRegister c]) /\
  (v <> VBool true ->
     handshake k c s = (emit (call_event k c) >> disconnect (One c) v) s /\
     (Client.closed (client s c) = false ->
        (c ∉ _recv_selector (handshake k c s).2) /\
        Client.closed (client (handshake k c s).2 c) = true /\
        trace (handshake k c s).2
        = trace s ++ call_event k c
            :: disconnect_calls c v (bool_decide (c ∈ clients s)))).
Proof.
  intros Hcb Hreg. split_and!.
  - intros Hin.
    destruct (is_True v && negb (Client.closed (client s c))) eqn:Hdec.
    + by apply andb_true_iff in Hdec as [?%is_True_spec ?%negb_true_iff].
    + rewrite (handshake_rejects k s c v Hcb Hdec) in Hin.
      unfold bind, emit, modify in Hin. cbn in Hin.
      apply disconnect_selector in Hin. done.
  - intros -> Hopen _.
    destruct (handshake_registers k s c Hcb Hopen Hreg)
      as (s' & -> & Hsel & Htr & _). cbn.
    split_and!; [done | rewrite Hsel; set_solver | done].
  - intros Hv.
    assert (is_True v && negb (Client.closed (client s c)) = false) as Hdec.
    { apply andb_false_iff. left. apply not_true_iff_false.
      by rewrite is_True_spec. }
    pose proof (handshake_rejects k s c v Hcb Hdec) as Hrun.
    split; [done|]. intros Hopen. rewrite Hrun.
    destruct (handshake_disconnect_open k s c v Hopen)
      as (s' & -> & Htr & _ & Hcc & Hsel). done.
Qed.

(** The readable callback answers the truthy integer 1: connection 0 is
    not registered again but closed, with 1 as the reason; it answers
    [True]: connection 0 is registered again. *)
Lemma register_only_on_exactly_True_witness :
  let s := set_selector (fun _ => {[1]})
             (set_handle_readable (fun _ => Returns (VInt 1)) three_clients) in
  let s1 := set_selector (fun _ => {[1]}) three_clients in
  (truthy (VInt 1) = true /\
   handshake Readable 0 s
   = (emit (call_event Readable 0) >> disconnect (One 0) (VInt 1)) s /\
   (Client.closed (client s 0) = false ->
      (0 ∉ _recv_selector (handshake Readable 0 s).2) /\
      Client.closed (client (handshake Readable 0 s).2 0) = true /\
      trace (handshake Readable 0 s).2
      = trace s ++ call_event Readable 0
          :: disconnect_calls 0 (VInt 1) (bool_decide (0 ∈ clients s)))) /\
  ((handshake Readable 0 s1).1 = Ok tt /\
   0 ∈ _recv_selector (handshake Readable 0 s1).2 /\
   trace (handshake Readable 0 s1).2
   = trace s1 ++ [call_event Readable 0; EvSelRegister 0]).
Proof.
  split; [split; [reflexivity|] |].
  - apply (register_only_on_exactly_True Readable
             (set_selector (fun _ => {[1]})
                (set_handle_readable (fun _ => Returns (VInt 1)) three_clients))
             0 (VInt 1)).
    + reflexivity.
    + cbn. set_solver.
    + discriminate.
  - apply (register_only_on_exactly_True Readable
             (set_selector (fun _ => {[1]}) three_clients) 0 (VBool true)).
    + reflexivity.
    + cbn. set_solver.
    + reflexivity.
    + reflexivity.
    + intros c _. reflexivity.
Defined.

(** The same with a non-empty string. *)
Example truthy_string_is_a_rejection :
  let s := set_selector (fun _ => {[1]})
             (set_handle_readable (fun _ => Returns (VStr "ok")) three_clients) in
  truthy (VStr "ok") = true /\
  trace (handshake Readable 0 s).2
  = [EvHandleReadable 0; EvSelUnregister 0; EvSockShutdown 0; EvSockClose 0;
     EvRegistryRemove 0; EvHandleClosed 0 (VStr "ok")].
Proof. vm_compute. done. Qed.

(** ** Failures of the callbacks *)

(** C3, as stated, fails for an exception that is neither a
    [socket.error] nor a [RuntimeError]: the [ValueError] of the callback
    leaves the handshake, and the connection stays open and in the
    registry, without a close notification. *)
Lemma uncaught_callback_failure_propagates :
  let e := Exn ValueError "bad frame" in
  let s := set_handle_incoming (fun _ => Raises e) three_clients in
  handshake Incoming 2 s = (Err e, log (EvHandleIncoming 2) s)
  /\ Client.closed (client (handshake Incoming 2 s).2 2) = false
  /\ clients (handshake Incoming 2 s).2 = [0; 1; 2]
  /\ closed_calls 2 (trace (handshake Incoming 2 s).2) = 0
  /\ ~ Claims.every_callback_failure_disconnects.
Proof.
  split_and!; try reflexivity.
  intros H.
  specialize (H Incoming
                (set_handle_incoming
                   (fun _ => Raises (Exn ValueError "bad frame")) three_clients)
                2 (Exn ValueError "bad frame") eq_refl).
  apply (f_equal fst) in H. vm_compute in H. discriminate H.
Qed.

(** C3, amended.  A failure of the callback that is a [socket.error] or a
    [RuntimeError] is caught by the handshake, which becomes
    [disconnect(client, str(e))]: an open connection is unregistered,
    closed, removed and notified with [str(e)] as the reason, and the
    failure itself goes no further.  Any other failure leaves the
    handshake as it came, and nothing is done to the connection. *)
Theorem callback_failure_handling (k : kind) (s : Server.t) (c : cid)
    (e : exn) :
  callback k s c = Raises e ->
  if is_socket_or_runtime_error e then
    handshake k c s
    = (emit (call_event k c) >> disconnect (One c) (VStr (exn_str e))) s /\
    (Client.closed (client s c) = false ->
     exists s',
       handshake k c s
       = (match handle_closed s c (VStr (exn_str e)) with
          | Returns _ => Ok tt
          | Raises e' => Err e'
          end, s') /\
       trace s' = trace s ++ call_event k c
                    :: disconnect_calls c (VStr (exn_str e))
                         (bool_decide (c ∈ clients s)) /\
       clients s' = list_remove c (clients s) /\
       Client.closed (client s' c) = true /\
       c ∉ _recv_selector s')
  else handshake k c s = (Err e, log (call_event k c) s).
Proof.
  intros Hcb.
  assert (handshake k c s
          = if is_socket_or_runtime_error e
            then (emit (call_event k c)
                  >> disconnect (One c) (VStr (exn_str e))) s
            else (Err e, log (call_event k c) s)) as Hrun.
  { rewrite handshake_unfold.
    destruct k; cbn in Hcb; rewrite Hcb; cbn;
      destruct (is_socket_or_runtime_error e); done. }
  destruct (is_socket_or_runtime_error e); [|done].
  split; [done|]. intros Hopen. rewrite Hrun.
  apply (handshake_disconnect_open k s c _ Hopen).
Qed.

(** [recv] finds the peer gone while connection 0 is being read. *)
Lemma callback_failure_handling_witness :
  let s := set_selector (fun _ => {[1]})
             (set_handle_readable (fun _ => Raises Client.broken_on_recv)
                three_clients) in
  handshake Readable 0 s
  = (emit (call_event Readable 0)
     >> disconnect (One 0) (VStr "Socket connection broken on recv")) s /\
  (Client.closed (client s 0) = false ->
   exists s',
     handshake Readable 0 s
     = (match handle_closed s 0 (VStr "Socket connection broken on recv") with
        | Returns _ => Ok tt
        | Raises e' => Err e'
        end, s') /\
     trace s' = trace s ++ call_event Readable 0
                  :: disconnect_calls 0 (VStr "Socket connection broken on recv")
                       (bool_decide (0 ∈ clients s)) /\
     clients s' = list_remove 0 (clients s) /\
     Client.closed (client s' 0) = true /\
     0 ∉ _recv_selector s').
Proof.
  apply (callback_failure_handling Readable
           (set_selector (fun _ => {[1]})
              (set_handle_readable (fun _ => Raises Client.broken_on_recv)
                 three_clients))
           0 Client.broken_on_recv).
  reflexivity.
Defined.

(** ** [disconnect], once and again *)

(** C8 at a connection that is already closed, here by a first
    [disconnect]: the second one stops at [unregister], which lets the
    selector's [ValueError] through; the socket is not closed again, the
    registry is not looked at, and [handle_closed] is not called. *)
Theorem disconnect_closed_client_raises :
  let s1 := (disconnect (One 0) (VStr "first") three_clients).2 in
  Client.closed (client s1 0) = true /\
  (0 ∉ _recv_selector s1) /\
  disconnect (One 0) (VStr "second") s1
  = (Err (Exn ValueError "Invalid file descriptor: -1"),
     log (EvSelUnregister 0) s1) /\
  closed_calls 0 (trace (disconnect (One 0) (VStr "second") s1).2) = 1.
Proof.
  cbn zeta.
  assert (Client.closed
            (client (disconnect (One 0) (VStr "first") three_clients).2 0)
          = true) as Hc by reflexivity.
  assert (0 ∉ _recv_selector
                (disconnect (One 0) (VStr "first") three_clients).2) as Hr.
  { vm_compute. set_solver. }
  split_and!; [done | done | by apply disconnect_closed |].
  rewrite disconnect_closed by done. reflexivity.
Qed.

End Protocol.

(* ===================================================================== *)
(** * Theorems: the interleaved loops and workers *)
(* ===================================================================== *)

Section Interleaving.
Import Server Sched.

Lemma in_flight_app (c : cid) (l1 l2 : list thread) :
  in_flight c (l1 ++ l2) = in_flight c l1 + in_flight c l2.
Proof.
  induction l1 as [|th l1 IH]; cbn [in_flight app]; [done|].
  rewrite IH. destruct (works_on c th); lia.
Qed.

Lemma in_flight_insert (c : cid) (l : list thread) (i : nat) (th th' : thread) :
  l !! i = Some th ->
  in_flight c (<[i := th']> l) + weight c th = in_flight c l + weight c th'.
Proof.
  revert i. induction l as [|x l IH]; intros [|i] Hi; try done.
  - injection Hi as ->. cbn [insert list_insert in_flight]. unfold weight.
    destruct (works_on c th), (works_on c th'); lia.
  - specialize (IH i Hi).
    change (<[S i:=th']> (x :: l)) with (x :: <[i:=th']> l).
    cbn [in_flight]. destruct (works_on c x); lia.
Qed.

(** ** What each statement does to the selector *)

Lemma sel_unregister_selector (c : cid) (s : Server.t) :
  match sel_unregister c s with
  | (Ok _, s') =>
      c ∈ _recv_selector s /\ _recv_selector s' = _recv_selector s ∖ {[c]}
  | (Err _, s') => _recv_selector s' = _recv_selector s
  end.
Proof.
  srv_unfold. cbn.
  destruct (bool_decide_reflect (c ∈ _recv_selector s)); cbn; [done|].
  by destruct (Client.closed _).
Qed.

Lemma register_selector (c : cid) (s : Server.t) :
  _recv_selector (register c false s).2 ⊆ _recv_selector s ∪ {[c]}.
Proof.
  srv_unfold. cbn.
  destruct (bool_decide (c ∈ _recv_selector s)); cbn; [set_solver|].
  destruct (Client.closed _); cbn; set_solver.
Qed.

Lemma set_accepted_selector (c : cid) (s : Server.t) :
  exists s', set_accepted c s = (Ok tt, s')
             /\ _recv_selector s' = _recv_selector s.
Proof. srv_unfold. cbn. eauto. Qed.

Lemma disconnect_stmt_selector (pc : dpc) (c : cid) (reason : value)
    (o : outcome value) (s : Server.t) :
  _recv_selector (disconnect_stmt pc c reason o s).2 ⊆ _recv_selector s.
Proof.
  destruct pc; cbn [disconnect_stmt]; srv_unfold; cbn.
  - destruct (bool_decide (c ∈ _recv_selector s)); cbn; [set_solver|].
    destruct (Client.closed _); cbn; set_solver.
  - done.
  - destruct (bool_decide (c ∈ clients s)); cbn; done.
  - destruct o; cbn; done.
Qed.

Lemma advance_spec (m : M unit) (next th' : thread) (s s' : Server.t) :
  advance m next s = (th', s') ->
  s' = (m s).2 /\ (th' = next \/ exists e, th' = Exited (Some e)).
Proof.
  unfold advance. destruct (m s) as [[[]|e] s1]; intros [= <- <-]; eauto.
Qed.

Lemma reg_mono (c : cid) (s s' : Server.t) :
  _recv_selector s' ⊆ _recv_selector s -> reg c s' <= reg c s.
Proof. unfold reg. intros H. repeat case_bool_decide; try lia. set_solver. Qed.

Lemma after_disconnect_weight (c : cid) (pc : dpc) (f : dpc -> thread) (n : nat) :
  (forall pc', weight c (f pc') = n) ->
  weight c (after_disconnect_stmt pc f) <= n.
Proof.
  intros H. unfold after_disconnect_stmt. destruct (dpc_next pc); [by rewrite H|].
  cbn. lia.
Qed.

(** A statement of a thread never adds to what the selector and the
    thread together hold of a client: the only registration is the one
    that ends a worker on that client. *)
Lemma thread_step_load (th th' : thread) (o : outcome value)
    (s s' : Server.t) (c : cid) :
  thread_step th o s = Some (th', s') ->
  reg c s' + weight c th' <= reg c s + weight c th.
Proof.
  destruct th as [k c0 [|[v|e]| | |pc reason]|c0 pc reason|]; cbn [thread_step];
    intros Hstep.
  - injection Hstep as <- <-. done.
  - destruct (is_True v && negb _); [destruct k|]; injection Hstep as <- <-; done.
  - destruct (is_socket_or_runtime_error e); injection Hstep as <- <-;
      [done | cbn; lia].
  - apply (inj Some), advance_spec in Hstep as [-> Hth].
    destruct (set_accepted_selector c0 s) as (s1 & -> & Hsel). cbn.
    unfold reg. rewrite Hsel.
    destruct Hth as [->|[e ->]]; [done | cbn; lia].
  - apply (inj Some), advance_spec in Hstep as [-> Hth].
    pose proof (register_selector c0 s) as Hsel.
    assert (weight c th' = 0) as -> by (by destruct Hth as [->|[e ->]]).
    unfold reg, weight. cbn. repeat case_bool_decide; try lia. set_solver.
  - apply (inj Some), advance_spec in Hstep as [-> Hth].
    pose proof (reg_mono c _ _ (disconnect_stmt_selector pc c0 reason o s)).
    assert (weight c th' <= weight c (Worker k c0 (WDisconnect pc reason))).
    { destruct Hth as [->|[e ->]]; [|cbn; lia].
      by apply after_disconnect_weight. }
    lia.
  - apply (inj Some), advance_spec in Hstep as [-> Hth].
    pose proof (reg_mono c _ _ (disconnect_stmt_selector pc c0 reason o s)).
    assert (weight c th' <= 0).
    { destruct Hth as [->|[e ->]]; [|cbn; lia].
      by apply after_disconnect_weight. }
    unfold weight at 2. cbn. lia.
  - done.
Qed.

Lemma load_unfold (c : cid) (sys : system) :
  load c sys = reg c (server sys) + in_flight c (threads sys)
               + poll_pending c (poll sys) + accept_pending c (accept sys).
Proof. reflexivity. Qed.

Lemma reg_registered (c : cid) (sys : system) :
  reg c (server sys) = if registered c sys then 1 else 0.
Proof. reflexivity. Qed.

(** ** One scheduling decision *)

(** No decision adds to the load of a client, but the acceptance of a new
    one, which puts it in exactly one place. *)
Lemma exec_load (l : label) (sys sys' : system) :
  exec l sys = Some sys' ->
  fresh sys <= fresh sys' /\
  forall c,
    load c sys' <= load c sys \/
    (c = fresh sys /\ fresh sys' = S c /\ load c sys' = load c sys + 1).
Proof.
  destruct l as [ready| |i o|c0 reason]; cbn [exec].
  - unfold poll_step.
    destruct (poll sys) as [|[|c0 events]|c0 events] eqn:Hpoll.
    + destruct (select_ok ready (server sys)); [|done].
      intros [= <-]. split; [done|]. intros c. left.
      rewrite !load_unfold, Hpoll. cbn. lia.
    + intros [= <-]. split; [done|]. intros c. left.
      rewrite !load_unfold, Hpoll. cbn. lia.
    + pose proof (sel_unregister_selector c0 (server sys)) as Hsel.
      destruct (sel_unregister c0 (server sys)) as [[[]|e] s'];
        intros [= <-]; (split; [done|]); intros c; left;
        rewrite !load_unfold, Hpoll; cbn; unfold reg.
      * destruct Hsel as [Hin ->].
        repeat case_bool_decide; try lia; set_solver.
      * rewrite Hsel. lia.
    + intros [= <-]. split; [done|]. intros c. left.
      rewrite !load_unfold, Hpoll. cbn. rewrite in_flight_app. cbn.
      repeat case_bool_decide; lia.
  - unfold accept_step. destruct (accept sys) as [|c0] eqn:Hacc.
    + intros [= <-]. split; [cbn; lia|]. intros c.
      rewrite !load_unfold, Hacc. cbn.
      change (reg c (set_clients _ _)) with (reg c (server sys)).
      case_bool_decide; [right | left]; lia.
    + intros [= <-]. split; [done|]. intros c. left.
      rewrite !load_unfold, Hacc. cbn. rewrite in_flight_app. cbn.
      repeat case_bool_decide; lia.
  - destruct (threads sys !! i) as [th|] eqn:Hth; [|done].
    destruct (thread_step th o (server sys)) as [[th' s']|] eqn:Hstep; [|done].
    intros [= <-]. split; [done|]. intros c. left.
    rewrite !load_unfold. cbn.
    pose proof (thread_step_load _ _ _ _ _ c Hstep).
    pose proof (in_flight_insert c _ _ _ th' Hth). lia.
  - intros [= <-]. split; [done|]. intros c. left.
    rewrite !load_unfold. cbn. rewrite in_flight_app. cbn. lia.
Qed.

Lemma exec_inv (l : label) (sys sys' : system) :
  exec l sys = Some sys' -> inv sys -> inv sys'.
Proof.
  intros Hexec [Hone Hfresh].
  destruct (exec_load l sys sys' Hexec) as [Hle Hload].
  split; intros c.
  - destruct (Hload c) as [H|(-> & _ & H)].
    + specialize (Hone c). lia.
    + rewrite H, Hfresh; lia.
  - intros Hc. destruct (Hload c) as [H|(-> & Hf & _)]; [|lia].
    specialize (Hfresh c). lia.
Qed.

Lemma init_inv : inv Sched.init.
Proof.
  split; intros c; [|intros _]; rewrite load_unfold; cbn; unfold reg; cbn;
    rewrite bool_decide_false by set_solver; lia.
Qed.

Lemma run_inv (ls : list label) :
  forall sys sys', run ls sys = Some sys' -> inv sys -> inv sys'.
Proof.
  induction ls as [|l ls IH]; intros sys sys'; cbn [run].
  - by intros [= <-].
  - destruct (exec l sys) as [sys1|] eqn:Hexec; [|done].
    intros Hrun Hinv. eapply IH; [done|]. by eapply exec_inv.
Qed.

(** ** Who registers, and who starts a worker *)

Lemma register_result (c : cid) (s : Server.t) :
  match register c false s with
  | (Ok _, s') => _recv_selector s' = _recv_selector s ∪ {[c]}
  | (Err _, s') => _recv_selector s' = _recv_selector s
  end.
Proof.
  srv_unfold. cbn.
  destruct (bool_decide (c ∈ _recv_selector s)); cbn; [done|].
  by destruct (Client.closed _).
Qed.

(** A thread never turns to another client. *)
Lemma thread_step_weight (th th' : thread) (o : outcome value)
    (s s' : Server.t) (c : cid) :
  thread_step th o s = Some (th', s') -> weight c th' <= weight c th.
Proof.
  destruct th as [k c0 [|[v|e]| | |pc reason]|c0 pc reason|]; cbn [thread_step];
    intros Hstep.
  - by injection Hstep as <- <-.
  - destruct (is_True v && negb _); [destruct k|]; by injection Hstep as <- <-.
  - destruct (is_socket_or_runtime_error e); injection Hstep as <- <-;
      [done | cbn; lia].
  - apply (inj Some), advance_spec in Hstep as [_ [->|[e ->]]];
      [done | cbn; lia].
  - apply (inj Some), advance_spec in Hstep as [_ [->|[e ->]]]; cbn; lia.
  - apply (inj Some), advance_spec in Hstep as [_ [->|[e ->]]]; [|cbn; lia].
    by apply after_disconnect_weight.
  - apply (inj Some), advance_spec in Hstep as [_ [->|[e ->]]]; [|cbn; lia].
    by apply after_disconnect_weight.
  - done.
Qed.

(** The one statement that puts a client into the selector is the
    [register] that ends a handshake worker on that client. *)
Lemma thread_step_registers (th th' : thread) (o : outcome value)
    (s s' : Server.t) (c : cid) :
  thread_step th o s = Some (th', s') ->
  c ∉ _recv_selector s -> c ∈ _recv_selector s' ->
  exists k, th = Worker k c WRegister /\ th' = Exited None.
Proof.
  destruct th as [k c0 [|[v|e]| | |pc reason]|c0 pc reason|]; cbn [thread_step];
    intros Hstep Hout Hin.
  - by injection Hstep as <- <-.
  - destruct (is_True v && negb _); [destruct k|]; by injection Hstep as <- <-.
  - destruct (is_socket_or_runtime_error e); by injection Hstep as <- <-.
  - apply (inj Some), advance_spec in Hstep as [-> _].
    destruct (set_accepted_selector c0 s) as (s1 & Hrun & Hsel).
    rewrite Hrun in Hin. cbn in Hin. by rewrite Hsel in Hin.
  - pose proof (register_result c0 s) as Hsel.
    apply (inj Some) in Hstep. unfold advance in Hstep.
    destruct (register c0 false s) as [[[]|e] s1]; injection Hstep as <- <-.
    + exists k. rewrite Hsel in Hin.
      assert (c = c0) as -> by set_solver. done.
    + by rewrite Hsel in Hin.
  - apply (inj Some), advance_spec in Hstep as [-> _].
    by apply disconnect_stmt_selector in Hin.
  - apply (inj Some), advance_spec in Hstep as [-> _].
    by apply disconnect_stmt_selector in Hin.
  - done.
Qed.

Lemma exec_registers (l : label) (sys sys' : system) (c : cid) :
  exec l sys = Some sys' ->
  registered c sys = false -> registered c sys' = true ->
  exists i o k,
    l = LThread i o /\
    threads sys !! i = Some (Worker k c WRegister) /\
    threads sys' !! i = Some (Exited None).
Proof.
  unfold registered. intros Hexec Hout%bool_decide_eq_false Hin%bool_decide_eq_true.
  destruct l as [ready| |i o|c0 reason]; cbn [exec] in Hexec.
  - unfold poll_step in Hexec.
    destruct (poll sys) as [|[|c0 events]|c0 events].
    + destruct (select_ok _ _); by simplify_eq.
    + by simplify_eq.
    + pose proof (sel_unregister_selector c0 (server sys)) as Hsel.
      destruct (sel_unregister c0 (server sys)) as [[[]|e] s']; simplify_eq;
        cbn in Hin.
      * destruct Hsel as [_ Hsel]. rewrite Hsel in Hin. set_solver.
      * by rewrite Hsel in Hin.
    + by simplify_eq.
  - unfold accept_step in Hexec. destruct (accept sys); by simplify_eq.
  - destruct (threads sys !! i) as [th|] eqn:Hth; [|done].
    destruct (thread_step th o (server sys)) as [[th' s']|] eqn:Hstep; [|done].
    simplify_eq. cbn in Hin.
    destruct (thread_step_registers _ _ _ _ _ c Hstep Hout Hin) as (k & -> & ->).
    exists i, o, k. split_and!; [done | done |]. cbn.
    apply list_lookup_insert_eq. by eapply lookup_lt_Some.
  - by simplify_eq.
Qed.

Lemma exec_spawns (l : label) (sys sys' : system) (c : cid) :
  exec l sys = Some sys' ->
  in_flight c (threads sys) < in_flight c (threads sys') ->
  (exists ready events, l = LPoll ready /\ poll sys = PollSubmit c events) \/
  (l = LAccept /\ accept sys = AcceptSubmit c).
Proof.
  intros Hexec Hmore.
  destruct l as [ready| |i o|c0 reason]; cbn [exec] in Hexec.
  - unfold poll_step in Hexec.
    destruct (poll sys) as [|[|c0 events]|c0 events] eqn:Hpoll.
    + destruct (select_ok _ _); simplify_eq. cbn in Hmore. lia.
    + simplify_eq. cbn in Hmore. lia.
    + destruct (sel_unregister c0 (server sys)) as [[[]|e] s']; simplify_eq;
        cbn in Hmore; lia.
    + simplify_eq. cbn in Hmore. rewrite in_flight_app in Hmore. cbn in Hmore.
      case_bool_decide; [subst c0; eauto | lia].
  - unfold accept_step in Hexec. destruct (accept sys) as [|c0]; simplify_eq.
    + cbn in Hmore. lia.
    + cbn in Hmore. rewrite in_flight_app in Hmore. cbn in Hmore.
      case_bool_decide; [subst c0; eauto | lia].
  - destruct (threads sys !! i) as [th|] eqn:Hth; [|done].
    destruct (thread_step th o (server sys)) as [[th' s']|] eqn:Hstep; [|done].
    simplify_eq. cbn in Hmore.
    pose proof (thread_step_weight _ _ _ _ _ c Hstep).
    pose proof (in_flight_insert c _ _ _ th' Hth). lia.
  - simplify_eq. cbn in Hmore. rewrite in_flight_app in Hmore. cbn in Hmore. lia.
Qed.

(** C2.  In every state [sys] the two loops, the workers and concurrent
    [disconnect]s can reach from a new server, and for every connection:
    if it is in the selector, no worker is in flight on it; at most one
    worker is in flight on it; when the poll loop is about to submit its
    job, it has already left the selector and has no worker yet; the only
    step that puts it (back) into the selector is the [register] that ends
    a handshake worker on it; and the only step that starts a worker on it
    is the submission by the loop that holds its job. *)
Theorem registered_xor_in_flight (ls : list label) (sys : system) (c : cid) :
  run ls Sched.init = Some sys ->
  (registered c sys = true -> in_flight c (threads sys) = 0) /\
  in_flight c (threads sys) <= 1 /\
  (forall events, poll sys = PollSubmit c events ->
     registered c sys = false /\ in_flight c (threads sys) = 0) /\
  (forall l sys', exec l sys = Some sys' ->
     registered c sys = false -> registered c sys' = true ->
     exists i o k,
       l = LThread i o /\
       threads sys !! i = Some (Worker k c WRegister) /\
       threads sys' !! i = Some (Exited None)) /\
  (forall l sys', exec l sys = Some sys' ->
     in_flight c (threads sys) < in_flight c (threads sys') ->
     (exists ready events, l = LPoll ready /\ poll sys = PollSubmit c events) \/
     (l = LAccept /\ accept sys = AcceptSubmit c)).
Proof.
  intros Hrun.
  destruct (run_inv ls _ _ Hrun init_inv) as [Hone _].
  specialize (Hone c). rewrite load_unfold in Hone. unfold reg in Hone.
  unfold registered at 1 2. split_and!.
  - intros Hreg. rewrite Hreg in Hone. lia.
  - lia.
  - intros events Hpoll. rewrite Hpoll in Hone. cbn in Hone.
    rewrite (bool_decide_true (c = c)) in Hone by done.
    destruct (bool_decide (c ∈ _recv_selector (server sys))); [lia|].
    split; [done | lia].
  - intros l sys'. apply exec_registers.
  - intros l sys'. apply exec_spawns.
Qed.

(** Connection 0 has been dispatched: it is out of the selector and one
    worker is on it. *)
Lemma registered_xor_in_flight_witness :
  exists sys,
    run dispatch_schedule Sched.init = Some sys /\
    registered 0 sys = false /\
    in_flight 0 (threads sys) = 1 /\
    (registered 0 sys = true -> in_flight 0 (threads sys) = 0) /\
    in_flight 0 (threads sys) <= 1.
Proof.
  destruct (run dispatch_schedule Sched.init) as [sys|] eqn:Hrun;
    [|by vm_compute in Hrun].
  exists sys. split; [done|].
  pose proof (registered_xor_in_flight dispatch_schedule sys 0 Hrun)
    as (Hxor & Hone & _).
  vm_compute in Hrun. injection Hrun as <-.
  split_and!; [reflexivity | reflexivity | exact Hxor | exact Hone].
Defined.

(** ** The close notification under two concurrent [disconnect]s *)

(** C1 at [race_schedule]: a worker rejecting connection 0 and the bulk
    pass of [stop] both run [disconnect] on it, each passing [unregister]
    before the other has closed the socket.  [handle_closed] is called
    twice for the connection, once with each reason; [close_handled] is
    still false at the end. *)
Theorem racing_disconnects_notify_twice :
  exists sys,
    run race_schedule Sched.init = Some sys /\
    closed_calls 0 (trace (server sys)) = 2 /\
    drop 11 (trace (server sys))
    = [EvHandleClosed 0 (VBool false); EvHandleClosed 0 shutting_down] /\
    threads sys = [Exited None; Exited None; Exited None] /\
    Client.close_handled (client (server sys) 0) = false.
Proof. eexists. split; [vm_compute; reflexivity|]. vm_compute. done. Qed.

(** ** The flag [close_handled] *)

(** No statement of the server writes [close_handled]: it is false in
    every object, in every reachable state. *)
Lemma flag_unset_client (s : Server.t) (c : cid) :
  flag_unset s -> Client.close_handled (client s c) = false.
Proof.
  intros H. unfold client. destruct (heap s !! c) as [o|] eqn:Ho; [|done].
  by apply (H c o).
Qed.

Lemma thread_step_flag (th th' : thread) (o : outcome value) (s s' : Server.t) :
  thread_step th o s = Some (th', s') -> flag_unset s -> flag_unset s'.
Proof.
  intros Hstep Hflag.
  assert (forall c (f : Client.t -> Client.t),
            (forall x, Client.close_handled (f x) = Client.close_handled x) ->
            map_Forall (fun _ x => Client.close_handled x = false)
              (<[c := f (client s c)]> (heap s))) as Hins.
  { intros c f Hf. apply map_Forall_insert_2; [|done].
    rewrite Hf. by apply flag_unset_client. }
  destruct th as [k c [|[v|e]| | |pc reason]|c pc reason|];
    cbn [thread_step] in Hstep; try done;
    try destruct pc; unfold advance in Hstep; cbn [disconnect_stmt] in Hstep;
    srv_unfold; cbn in Hstep;
    repeat match type of Hstep with
           | context [is_True ?v] => destruct (is_True v); cbn in Hstep
           | context [is_socket_or_runtime_error ?e] =>
               destruct (is_socket_or_runtime_error e); cbn in Hstep
           | context [bool_decide ?P] => destruct (bool_decide P); cbn in Hstep
           | context [Client.closed ?x] =>
               destruct (Client.closed x) eqn:?; cbn in Hstep
           | context [match ?k with Incoming => _ | Readable => _ end] =>
               destruct k; cbn in Hstep
           | context [match ?o with Returns _ => _ | Raises _ => _ end] =>
               destruct o; cbn in Hstep
           end;
    injection Hstep as <- <-; try done; unfold flag_unset; cbn;
    by apply (Hins c).
Qed.

Lemma exec_flag (l : label) (sys sys' : system) :
  exec l sys = Some sys' ->
  flag_unset (server sys) -> flag_unset (server sys').
Proof.
  intros Hexec Hflag. destruct l as [ready| |i o|c0 reason]; cbn [exec] in Hexec.
  - unfold poll_step in Hexec.
    destruct (poll sys) as [|[|c0 events]|c0 events].
    + destruct (select_ok _ _); by simplify_eq.
    + by simplify_eq.
    + revert Hexec. srv_unfold. cbn.
      destruct (bool_decide _); cbn; [|destruct (Client.closed _); cbn];
        intros; by simplify_eq.
    + by simplify_eq.
  - unfold accept_step in Hexec. destruct (accept sys); simplify_eq; [|done].
    unfold flag_unset. cbn. by apply map_Forall_insert_2.
  - destruct (threads sys !! i) as [th|]; [|done].
    destruct (thread_step th o (server sys)) as [[th' s']|] eqn:Hstep; [|done].
    simplify_eq. cbn. by eapply thread_step_flag.
  - by simplify_eq.
Qed.

Lemma close_handled_never_set (ls : list label) :
  forall sys sys',
    run ls sys = Some sys' ->
    flag_unset (server sys) -> flag_unset (server sys').
Proof.
  induction ls as [|l ls IH]; intros sys sys'; cbn [run].
  - by intros [= <-].
  - destruct (exec l sys) as [sys1|] eqn:Hexec; [|done].
    intros Hrun Hflag. eapply IH; [done|]. by eapply exec_flag.
Qed.

(** ** The registry *)

Lemma list_remove_sublist (c : cid) (l : list cid) : sublist (list_remove c l) l.
Proof.
  induction l as [|x l IH]; cbn; [done|].
  case_bool_decide; [by apply sublist_cons | by apply sublist_skip].
Qed.

Lemma thread_step_clients (th th' : thread) (o : outcome value)
    (s s' : Server.t) :
  thread_step th o s = Some (th', s') -> sublist (clients s') (clients s).
Proof.
  intros Hstep.
  destruct th as [k c [|[v|e]| | |pc reason]|c pc reason|];
    cbn [thread_step] in Hstep; try done;
    try destruct pc; unfold advance in Hstep; cbn [disconnect_stmt] in Hstep;
    srv_unfold; cbn in Hstep;
    repeat match type of Hstep with
           | context [is_True ?v] => destruct (is_True v); cbn in Hstep
           | context [is_socket_or_runtime_error ?e] =>
               destruct (is_socket_or_runtime_error e); cbn in Hstep
           | context [bool_decide ?P] => destruct (bool_decide P); cbn in Hstep
           | context [Client.closed ?x] =>
               destruct (Client.closed x) eqn:?; cbn in Hstep
           | context [match ?k with Incoming => _ | Readable => _ end] =>
               destruct k; cbn in Hstep
           | context [match ?o with Returns _ => _ | Raises _ => _ end] =>
               destruct o; cbn in Hstep
           end;
    injection Hstep as <- <-; cbn; try done; apply list_remove_sublist.
Qed.

(** A connection appears at most once in the registry, in every reachable
    state. *)
Lemma exec_registry (l : label) (sys sys' : system) :
  exec l sys = Some sys' -> registry_ok sys -> registry_ok sys'.
Proof.
  intros Hexec [Hnd Hlt].
  assert (forall sys1,
            sublist (clients (server sys1)) (clients (server sys)) ->
            fresh sys1 = fresh sys -> registry_ok sys1) as Hsub.
  { intros sys1 Hs Hf. split; [by eapply sublist_NoDup|].
    intros c Hc. rewrite Hf. apply Hlt. by eapply elem_of_sublist. }
  destruct l as [ready| |i o|c0 reason]; cbn [exec] in Hexec.
  - unfold poll_step in Hexec.
    destruct (poll sys) as [|[|c0 events]|c0 events].
    + destruct (select_ok _ _); simplify_eq. by apply Hsub.
    + simplify_eq. by apply Hsub.
    + revert Hexec. srv_unfold. cbn.
      destruct (bool_decide _); cbn; [|destruct (Client.closed _); cbn];
        intros; simplify_eq; by apply Hsub.
    + simplify_eq. by apply Hsub.
  - unfold accept_step in Hexec. destruct (accept sys); simplify_eq.
    + split; cbn.
      * apply NoDup_app. split_and!; [done | | apply NoDup_singleton].
        intros c Hc ->%list_elem_of_singleton. specialize (Hlt _ Hc). lia.
      * intros c [Hc | ->%list_elem_of_singleton]%elem_of_app; [|lia].
        specialize (Hlt _ Hc). lia.
    + by apply Hsub.
  - destruct (threads sys !! i) as [th|]; [|done].
    destruct (thread_step th o (server sys)) as [[th' s']|] eqn:Hstep; [|done].
    simplify_eq. apply Hsub; [|done]. cbn. by eapply thread_step_clients.
  - simplify_eq. by apply Hsub.
Qed.

Lemma registry_nodup (ls : list label) :
  forall sys sys',
    run ls sys = Some sys' -> registry_ok sys -> registry_ok sys'.
Proof.
  induction ls as [|l ls IH]; intros sys sys'; cbn [run].
  - by intros [= <-].
  - destruct (exec l sys) as [sys1|] eqn:Hexec; [|done].
    intros Hrun Hok. eapply IH; [done|]. by eapply exec_registry.
Qed.

(** ** The two models agree *)

(** A worker that is not interrupted does what the handshake of [Server]
    does, and ends as the handshake ends. *)
Lemma solo_S (fuel : nat) (th : thread) (s : Server.t) :
  solo (S fuel) th s
  = match thread_step th (answer_for th s) s with
    | Some (th', s') => solo fuel th' s'
    | None => (th, s)
    end.
Proof. reflexivity. Qed.

Lemma solo_exited (fuel : nat) (e : option exn) (s : Server.t) :
  solo fuel (Exited e) s = (Exited e, s).
Proof. by destruct fuel. Qed.

(** One statement of a thread, against the same statement in a method. *)
Lemma solo_advance (fuel : nat) (m : M unit) (rest : M unit) (next : thread)
    (s : Server.t) :
  (forall s1, solo fuel next s1 = (exit_of (rest s1).1, (rest s1).2)) ->
  (let '(th', s') := advance m next s in solo fuel th' s')
  = (exit_of ((m >> rest) s).1, ((m >> rest) s).2).
Proof.
  intros Hnext. unfold advance, bind.
  destruct (m s) as [[[]|e] s1]; [apply Hnext | apply solo_exited].
Qed.

Lemma solo_disconnect (n : nat) (mk : dpc -> thread) (c : cid)
    (reason : value) (s : Server.t) :
  (forall pc o s1,
     thread_step (mk pc) o s1
     = Some (advance (disconnect_stmt pc c reason o)
               (after_disconnect_stmt pc mk) s1)) ->
  (forall s1, answer_for (mk DNotify) s1 = handle_closed s1 c reason) ->
  solo (4 + n) (mk DUnregister) s
  = (exit_of (disconnect (One c) reason s).1, (disconnect (One c) reason s).2).
Proof.
  intros Hstep Hans. cbn [disconnect]. unfold disconnect_client.
  change (4 + n) with (S (S (S (S n)))).
  rewrite solo_S, Hstep. cbn [disconnect_stmt after_disconnect_stmt dpc_next].
  apply solo_advance. intros s1.
  rewrite solo_S, Hstep. cbn [disconnect_stmt after_disconnect_stmt dpc_next].
  apply solo_advance. intros s2.
  rewrite solo_S, Hstep. cbn [disconnect_stmt after_disconnect_stmt dpc_next].
  apply solo_advance. intros s3.
  rewrite solo_S, Hstep, Hans.
  cbn [disconnect_stmt after_disconnect_stmt dpc_next].
  unfold call_handle_closed, bind at 1 2, gets. cbn [id].
  unfold advance. destruct (notify_closed c reason _ s3) as [[[]|e] s4]; cbn;
    by rewrite ?solo_exited.
Qed.

(** A worker that is not interrupted does what the handshake of [Server]
    does, and ends as the handshake ends. *)
Lemma solo_handshake (k : kind) (c : cid) (s : Server.t) :
  solo 7 (Worker k c WCall) s
  = (exit_of (handshake k c s).1, (handshake k c s).2).
Proof.
  rewrite handshake_unfold.
  assert (forall reason s1,
            solo 5 (Worker k c (WDisconnect DUnregister reason)) s1
            = (exit_of (disconnect (One c) reason s1).1,
               (disconnect (One c) reason s1).2)) as Hdisc.
  { intros reason s1.
    apply (solo_disconnect 1 (fun pc => Worker k c (WDisconnect pc reason)));
      done. }
  assert (forall n s1,
            solo (S n) (Worker k c WRegister) s1
            = (exit_of (register c false s1).1, (register c false s1).2))
    as Hregister.
  { intros n s1. rewrite solo_S. cbn [thread_step]. unfold advance.
    destruct (register c false s1) as [[[]|e] s2]; apply solo_exited. }
  rewrite solo_S. cbn [answer_for thread_step].
  set (s0 := log (call_event k c) s).
  assert (forall o,
            solo 6 (Worker k c (WAnswered o)) s0
            = (exit_of (match k with
                        | Incoming => accepted_after c o s0
                        | Readable => readable_after c o s0
                        end).1,
               (match k with
                | Incoming => accepted_after c o s0
                | Readable => readable_after c o s0
                end).2)) as Hanswered.
  { intros [v|e]; rewrite solo_S; cbn [thread_step answer_for].
    - assert (forall rest : M unit,
                (let* s1 := gets id in
                 if is_True v && negb (Client.closed (client s1 c))
                 then rest else disconnect (One c) v) s0
                = (if is_True v && negb (Client.closed (client s0 c))
                   then rest else disconnect (One c) v) s0) as Hif by done.
      destruct k; unfold accepted_after, readable_after; rewrite Hif;
        destruct (is_True v && negb (Client.closed (client s0 c)));
        try apply Hdisc; [|apply Hregister].
      rewrite solo_S. cbn [thread_step]. apply solo_advance. apply Hregister.
    - assert (accepted_after c (Raises e) s0 = readable_after c (Raises e) s0)
        as Hsame by done.
      destruct k; rewrite ?Hsame; cbn [readable_after];
        (destruct (is_socket_or_runtime_error e);
         [apply Hdisc | apply solo_exited]). }
  destruct k; apply Hanswered.
Qed.

End Interleaving.

(* ===================================================================== *)
(** * More on the transfer primitives *)
(* ===================================================================== *)

Section TransferMore.
Import Client Reads.

(** X1.  [recv(size, fixed=False)] is one call of [socket.recv] with
    buffer size [size]: it returns what that call returned, at least one
    byte and at most [size]; it raises the broken-connection error when
    the call returns nothing, which for [size = 0] is always; and a
    negative [size] is the socket's [ValueError]. *)
Theorem recv_unfixed_single_read (sock : nat -> sock_read) (size : Z) :
  let r := recv sock size false in
  requests r = [size] /\
  recv_result r <> Hangs /\ recv_result r <> NoFuel /\
  (forall data, recv_result r = Done data ->
     data <> [] /\ (Z.of_nat (length data) <= size)%Z /\
     exists arrived, sock 0 = Arrived arrived
                     /\ data = take (Z.to_nat size) arrived) /\
  (forall arrived, sock 0 = Arrived arrived ->
     (size = 0%Z \/ arrived = []) -> (0 <= size)%Z ->
     recv_result r = Fails broken_on_recv) /\
  (forall arrived, sock 0 = Arrived arrived -> (size < 0)%Z ->
     exists msg, recv_result r = Fails (Exn ValueError msg)) /\
  (forall e, sock 0 = ReadError e -> recv_result r = Fails e).
Proof.
  cbn zeta. unfold recv, socket_recv.
  destruct (sock 0) as [arrived|e] eqn:Hsock.
  - destruct (Z.ltb_spec size 0) as [Hneg|Hpos]; cbn.
    + split_and!; try done.
      * intros arrived' _ _ ?. lia.
      * eauto.
    + case_bool_decide as Hempty; cbn.
      * split_and!; try done. intros arrived' _ Hlt. lia.
      * split_and!; try done.
        -- intros data [= <-]. split_and!; [done | | eauto].
           rewrite length_take. lia.
        -- intros arrived' [= <-] [-> | ->] _; by destruct Hempty;
             rewrite ?take_0, ?take_nil.
        -- intros arrived' _ Hlt. lia.
  - cbn. split_and!; try done. by intros e' [= <-].
Qed.

(** The loop of [recv] asks each time for what is still missing, at most
    2048 bytes, and keeps every byte it is handed, in order. *)
Lemma recv_loop_stream (sock : nat -> sock_read) (size : Z) :
  forall fuel call bytes_recd chunks asked,
    length asked = call ->
    concat chunks = handed_over sock asked ->
    Z.of_nat (length (concat chunks)) = bytes_recd ->
    (forall j b, asked !! j = Some b ->
       b = Z.min (size - Z.of_nat (length (handed_over sock (take j asked)))) 2048) ->
    let r := recv_loop fuel sock call size bytes_recd chunks asked in
    (forall data, recv_result r = Done data ->
       data = handed_over sock (requests r)) /\
    (forall j b, requests r !! j = Some b ->
       b = Z.min (size - Z.of_nat (length (handed_over sock (take j (requests r))))) 2048) /\
    length (requests r) <= call + fuel.
Proof.
  induction fuel as [|fuel IH];
    intros call bytes_recd chunks asked Hcall Hkept Hlen Hasked;
    cbn [recv_loop].
  - destruct (bytes_recd <? size)%Z; cbn; (split_and!; [ | done | lia]).
    + done.
    + by intros data [= <-].
  - destruct (Z.ltb_spec bytes_recd size) as [Hlt|Hge]; cbn zeta.
    + set (bufsize := Z.min (size - bytes_recd) 2048).
      assert (forall j b, (asked ++ [bufsize]) !! j = Some b ->
                b = Z.min (size - Z.of_nat
                             (length (handed_over sock
                                        (take j (asked ++ [bufsize]))))) 2048)
        as Hasked'.
      { intros j b Hj. destruct (decide (j < length asked)) as [Hin|Hout].
        - rewrite lookup_app_l in Hj by done.
          rewrite take_app_le by lia. by apply Hasked.
        - apply lookup_lt_Some in Hj as Hj'. rewrite length_app in Hj'.
          cbn in Hj'. assert (j = length asked) as -> by lia.
          rewrite list_lookup_middle in Hj by done. injection Hj as <-.
          rewrite take_app_length, <- Hkept, Hlen. done. }
      assert (length (asked ++ [bufsize]) <= call + S fuel) as Hbound.
      { rewrite length_app. cbn. lia. }
      destruct (socket_recv (sock call) bufsize) as [chunk|e] eqn:Hrecv.
      * case_bool_decide as Hchunk; [cbn; by split_and!|].
        specialize (IH (S call) (bytes_recd + Z.of_nat (length chunk))%Z
                      (chunks ++ [chunk]) (asked ++ [bufsize])).
        destruct IH as (Hd & Ha & Hb); [| | | done |].
        { rewrite length_app. cbn. lia. }
        { unfold handed_over in *. rewrite imap_app, !concat_app, Hkept.
          cbn. rewrite Nat.add_0_r, Hcall. unfold chunk_at. by rewrite Hrecv. }
        { rewrite concat_app, length_app. cbn. rewrite app_nil_r. lia. }
        split_and!; [done | done | lia].
      * cbn. by split_and!.
    + cbn. split_and!; [ | done | lia]. by intros data [= <-].
Qed.

(** X2.  [recv(size, fixed=True)]: every read asks for exactly what is
    still missing, capped at 2048 bytes, so no byte beyond [size] is ever
    taken from the socket; the buffer returned is the bytes the reads
    handed over, all of them and in order; and there are at most [size]
    reads. *)
Theorem recv_fixed_keeps_the_stream (sock : nat -> sock_read) (size : Z) :
  let r := recv sock size true in
  (forall data, recv_result r = Done data ->
     data = handed_over sock (requests r)) /\
  (forall j b, requests r !! j = Some b ->
     b = Z.min (size - Z.of_nat (length (handed_over sock (take j (requests r)))))
           2048) /\
  length (requests r) <= Z.to_nat size.
Proof.
  cbn zeta. unfold recv.
  apply (recv_loop_stream sock size (Z.to_nat size) 0 0 [] []); try done.
Qed.

(** The loop of [send] never writes anything but the next bytes of the
    payload, and each call but a failing last one moves at least one
    byte. *)
Lemma send_loop_prefix (sock : nat -> sock_write) (bytes : list Byte.byte) :
  forall fuel call total_sent out,
    total_sent <= length bytes ->
    out = take total_sent bytes ->
    let '(r, out', calls) :=
      send_loop fuel sock call bytes total_sent (length bytes) out in
    out' = take (length out') bytes /\
    total_sent <= length out' /\
    length out' <= length bytes /\
    calls + total_sent <= call + length bytes /\
    (forall n, r = Done n -> n = length out') /\
    ((exists e, r = Fails e) -> length out' < length bytes).
Proof.
  induction fuel as [|fuel IH]; intros call total_sent out Hle Hout;
    cbn [send_loop].
  - assert (length out = total_sent) as Hlen.
    { subst out. rewrite length_take. lia. }
    destruct (Nat.ltb_spec total_sent (length bytes)); rewrite Hlen;
      (split_and!; [by subst out | lia | lia | lia | | by intros [? ?]]).
    + done.
    + by intros n [= <-].
  - assert (length out = total_sent) as Hlen.
    { subst out. rewrite length_take. lia. }
    destruct (Nat.ltb_spec total_sent (length bytes)) as [Hlt|Hge].
    + destruct (sock call) as [room|e] eqn:Hsock; cbn [socket_send].
      * destruct (Nat.eqb_spec (Nat.min room (length (drop total_sent bytes))) 0)
          as [Hz|Hnz].
        -- rewrite Hlen.
           split_and!; [by subst out | lia | lia | lia | done | lia].
        -- rewrite length_drop in Hnz |- *.
           set (n := Nat.min room (length bytes - total_sent)) in *.
           specialize (IH (S call) (total_sent + n)
                         (out ++ take n (drop total_sent bytes))).
           destruct (send_loop fuel sock (S call) bytes (total_sent + n)
                       (length bytes) (out ++ take n (drop total_sent bytes)))
             as [[r out'] calls].
           destruct IH as (Hp & Hl & Hl' & Hc & Hd & Hf); [lia | |].
           { subst out. apply take_take_drop. }
           split_and!; [done | lia | lia | lia | done | done].
      * rewrite Hlen.
        split_and!; [by subst out | lia | lia | lia | done | lia].
    + rewrite Hlen.
      split_and!; [by subst out | lia | lia | lia | | by intros [? ?]].
      by intros n [= <-].
Qed.

(** X3.  Whatever way [Client.send] ends, what it has put on the wire is
    a prefix of the payload, and it has called [socket.send] at most
    [len(bytes)] times - not at all for an empty payload.  When it raises,
    the bytes already written stay written, and they are fewer than the
    payload. *)
Theorem send_writes_a_prefix (lk : lock_env) (sock : nat -> sock_write)
    (bytes : list Byte.byte) (timeout : Z) :
  let r := send lk sock bytes timeout in
  wire r = take (length (wire r)) bytes /\
  length (wire r) <= length bytes /\
  send_calls r <= length bytes /\
  (forall e, send_result r = Fails e -> length (wire r) < length bytes \/
                                        Lock_acquire lk timeout = Rejected e).
Proof.
  cbn zeta. unfold send. destruct (Lock_acquire lk timeout) eqn:Hacq; cbn.
  - pose proof (send_loop_prefix sock bytes (length bytes) 0 0 []) as H.
    destruct (send_loop (length bytes) sock 0 bytes 0 (length bytes) [])
      as [[r out] calls]; cbn.
    destruct H as (Hp & Hl & Hl' & Hc & Hd & Hf); [lia | done |].
    split_and!; [done | lia | lia |]. intros e ->. left. eauto.
  - split_and!; [done | lia | lia | done].
  - split_and!; [done | lia | lia | done].
  - split_and!; [done | lia | lia |]. intros e' [= <-]. by right.
Qed.

(** A write fails after two of three bytes: the two bytes are out. *)
Example send_fails_after_two_bytes :
  let r := send (FreeAfter 0)
             (fun n => if n =? 0 then Room 2
                       else WriteError (Exn OSError "[Errno 32] Broken pipe"))
             ["a"; "b"; "c"]%byte (-1) in
  send_result r = Fails (Exn OSError "[Errno 32] Broken pipe")
  /\ wire r = ["a"; "b"]%byte.
Proof. split; reflexivity. Qed.

End TransferMore.

(* ===================================================================== *)
(** * The decorator *)
(* ===================================================================== *)

Section Decorator.
Import Log.

Lemma check_spec (args_ : list string) :
  match check do_init args_ with
  | Some e =>
      exists before i after,
        args_ = before ++ i :: after /\
        (forall j, j ∈ before -> j ∈ keys \/ j = "all") /\
        (i ∉ keys) /\ i <> "all" /\
        e = Exn ValueError (i ++ " is not a valid variable")
  | None => forall j, j ∈ args_ -> j ∈ keys \/ j = "all"
  end.
Proof.
  assert (forall i : string, i ∈ dom do_init <-> i ∈ keys) as Hdom.
  { intros i. unfold do_init, keys. rewrite !dom_insert_L, dom_empty_L.
    set_solver. }
  induction args_ as [|i rest IH]; cbn [check].
  - intros j Hj. by apply elem_of_nil in Hj.
  - case_bool_decide as Hi; cbn.
    + destruct (String.eqb_spec i "all") as [->|Hall]; cbn.
      * destruct (check do_init rest) as [e|].
        -- destruct IH as (before & i & after & -> & Hb & Hk & Ha & ->).
           exists ("all" :: before), i, after.
           split_and!; try done. intros j [->|Hj]%elem_of_cons; auto.
        -- intros j [->|Hj]%elem_of_cons; auto.
      * exists [], i, rest. split_and!; try done.
        -- intros j Hj. by apply elem_of_nil in Hj.
        -- by rewrite <- Hdom.
    + apply Hdom in Hi.
      destruct (check do_init rest) as [e|].
      * destruct IH as (before & i' & after & -> & Hb & Hk & Ha & ->).
        exists (i :: before), i', after.
        split_and!; try done. intros j [->|Hj]%elem_of_cons; auto.
      * intros j [->|Hj]%elem_of_cons; auto.
Qed.

Lemma enable_lookup (args_ : list string) (ks : list string) :
  forall (do : gmap string bool) (k : string),
    enable ks args_ do !! k
    = if bool_decide (k ∈ ks)
         && (bool_decide (k ∈ args_) || bool_decide ("all" ∈ args_))
      then Some true else do !! k.
Proof.
  induction ks as [|i rest IH]; intros do k; cbn [enable]; [done|].
  rewrite IH.
  destruct (bool_decide (i ∈ args_) || bool_decide ("all" ∈ args_)) eqn:Hon.
  - destruct (decide (k = i)) as [->|Hne].
    + rewrite lookup_insert_eq, Hon, (bool_decide_true (i ∈ i :: rest)),
        andb_true_r by set_solver.
      by destruct (bool_decide (i ∈ rest)).
    + rewrite lookup_insert_ne by done.
      by rewrite (bool_decide_ext (k ∈ i :: rest) (k ∈ rest)) by set_solver.
  - destruct (decide (k = i)) as [->|Hne].
    + rewrite Hon, !andb_false_r. done.
    + by rewrite (bool_decide_ext (k ∈ i :: rest) (k ∈ rest)) by set_solver.
Qed.

(** X4.  [Log(names)] raises [ValueError], naming the first offender, as
    soon as one name is neither one of the four keys nor ['all'];
    otherwise [do] keeps exactly its four keys, and a key is on exactly
    when it is among the names or ['all'] is: order and repetition of the
    names do not matter. *)
Theorem Log_init_flags (args_ : list string) :
  match init args_ with
  | Raises e =>
      exists before i after,
        args_ = before ++ i :: after /\
        (forall j, j ∈ before -> j ∈ keys \/ j = "all") /\
        (i ∉ keys) /\ i <> "all" /\
        e = Exn ValueError (i ++ " is not a valid variable")
  | Returns do =>
      (forall j, j ∈ args_ -> j ∈ keys \/ j = "all") /\
      dom do = list_to_set keys /\
      forall k, k ∈ keys ->
        do !! k = Some (bool_decide (k ∈ args_) || bool_decide ("all" ∈ args_))
  end.
Proof.
  unfold init. pose proof (check_spec args_) as Hcheck.
  destruct (check do_init args_) as [e|]; [done|].
  split_and!; [done | |].
  - apply set_eq. intros k. rewrite elem_of_dom, enable_lookup.
    unfold keys, do_init.
    destruct (bool_decide (k ∈ ["errors"; "enter"; "exit"; "args"])) eqn:Hk.
    + apply bool_decide_eq_true in Hk. split; [set_solver|]. intros _.
      destruct (_ || _); cbn; [done|].
      set_unfold in Hk.
      destruct Hk as [->|[->|[->|[->|[]]]]]; by eexists.
    + apply bool_decide_eq_false in Hk. cbn. split; [|set_solver].
      intros [v Hv]. set_unfold in Hk.
      rewrite !lookup_insert_ne in Hv by naive_solver. done.
  - intros k Hk. rewrite enable_lookup, bool_decide_true by done. cbn.
    destruct (_ || _); [done|].
    unfold keys in Hk. set_unfold in Hk.
    destruct Hk as [->|[->|[->|[->|[]]]]]; by vm_compute.
Qed.

Lemma init_flag (args_ : list string) (do : gmap string bool) (k : string) :
  init args_ = Returns do -> k ∈ keys ->
  flag do k = bool_decide (k ∈ args_) || bool_decide ("all" ∈ args_).
Proof.
  unfold init, flag. destruct (check do_init args_); [done|].
  intros Hdo Hk.
  assert (do = enable keys args_ do_init) as -> by congruence.
  rewrite enable_lookup, bool_decide_true by done. cbn.
  destruct (_ || _); [done|].
  unfold keys in Hk. set_unfold in Hk.
  destruct Hk as [->|[->|[->|[->|[]]]]]; by vm_compute.
Qed.

(** X5.  A function decorated with [Log(names)] does to the state what
    the function does and raises what it raises, but returns [None] in
    place of its value; it logs the call if 'enter' is on, then the error
    if it raised and 'errors' is on, or the normal exit if it returned and
    'exit' is on.  The key 'args' changes nothing. *)
Theorem Log_wrapped_behaviour {St A : Type} (args_ : list string)
    (do : gmap string bool) (f : St -> outcome A * St) (st : St) :
  init args_ = Returns do ->
  let on := fun k => bool_decide (k ∈ args_) || bool_decide ("all" ∈ args_) in
  wrapped do f st
  = (match (f st).1 with
     | Returns _ => Returns tt
     | Raises e => Raises e
     end,
     (f st).2,
     (if on "enter" then [DebugCalled] else [])
     ++ match (f st).1 with
        | Returns _ => if on "exit" then [DebugExited] else []
        | Raises _ => if on "errors" then [ErrorExited] else []
        end).
Proof.
  intros Hinit. cbn zeta. unfold wrapped.
  rewrite !(init_flag args_ do) by (done || (unfold keys; set_solver)).
  by destruct (f st) as [[v|e] st'].
Qed.

(** [Log('errors')], as on most methods, around a function that raises. *)
Lemma Log_wrapped_behaviour_witness :
  wrapped (enable keys ["errors"] do_init)
    (fun st : nat => (Raises (A := nat) (Exn KeyError "k"), S st)) 0
  = (Raises (Exn KeyError "k"), 1, [ErrorExited]).
Proof.
  apply (Log_wrapped_behaviour ["errors"] (enable keys ["errors"] do_init)
           (fun st : nat => (Raises (A := nat) (Exn KeyError "k"), S st)) 0).
  reflexivity.
Defined.

(** ** [_indent_string] *)

Lemma concat_splitlines (s : str) :
  forall line, concat (splitlines s line) = line ++ s.
Proof.
  remember (length s) as n eqn:Hn. revert s Hn.
  induction (lt_wf n) as [n _ IH]. intros s -> line.
  destruct s as [|c s]; cbn [splitlines].
  - destruct line; cbn; by rewrite ?app_nil_r.
  - destruct (is_linebreak c).
    + destruct s as [|c' s].
      * cbn. by rewrite app_nil_r.
      * destruct ((c =? 13)%N && (c' =? 10)%N); cbn [concat].
        -- rewrite (IH (length s)) by (cbn; lia || done).
           by rewrite <- app_assoc.
        -- rewrite (IH (length (c' :: s))) by (cbn; lia || done).
           by rewrite <- app_assoc.
    + rewrite (IH (length s)) by (cbn; lia || done). by rewrite <- app_assoc.
Qed.

Lemma join_empty_sep (lines : list str) : join [] lines = concat lines.
Proof.
  induction lines as [|x [|y rest] IH]; [done | cbn; by rewrite app_nil_r |].
  change (join [] (x :: y :: rest)) with (x ++ [] ++ join [] (y :: rest)).
  by rewrite IH.
Qed.

Lemma length_join (sep : str) (lines : list str) :
  length (join sep lines)
  = length (concat lines) + length sep * (length lines - 1).
Proof.
  induction lines as [|x [|y rest] IH].
  - cbn. lia.
  - cbn. rewrite app_nil_r. lia.
  - change (join sep (x :: y :: rest)) with (x ++ sep ++ join sep (y :: rest)).
    rewrite !length_app, IH. cbn [concat length]. rewrite !length_app. lia.
Qed.

Lemma splitlines_one_line (s : str) :
  Forall (fun c => is_linebreak c = false) s ->
  forall line, splitlines s line
               = match line ++ s with [] => [] | _ => [line ++ s] end.
Proof.
  induction 1 as [|c s Hc _ IH]; intros line; cbn [splitlines].
  - rewrite app_nil_r. by destruct line.
  - rewrite Hc, IH, <- app_assoc. done.
Qed.

(** X6.  [_indent_string] puts [indentation] spaces between the lines of
    the string, that is before every line but the first: the string comes
    back unchanged when the indentation is zero or negative or when it
    holds no line boundary, it always starts with its first line as it
    was, and it grows by [indentation] characters per line after the
    first. *)
Theorem indent_string_spec (string : str) (indentation : Z) :
  ((indentation <= 0)%Z -> _indent_string string indentation = string) /\
  (Forall (fun c => is_linebreak c = false) string ->
     _indent_string string indentation = string) /\
  length (_indent_string string indentation)
  = length string
    + Z.to_nat indentation * (length (splitlines string []) - 1) /\
  (forall first rest, splitlines string [] = first :: rest ->
     take (length first) (_indent_string string indentation) = first).
Proof.
  unfold _indent_string. split_and!.
  - intros Hn. replace (Z.to_nat indentation) with 0 by lia. cbn.
    by rewrite join_empty_sep, concat_splitlines.
  - intros Hone. rewrite splitlines_one_line by done. cbn.
    by destruct string.
  - rewrite length_join, concat_splitlines, length_replicate. done.
  - intros first rest ->. destruct rest; cbn [join].
    + by rewrite take_ge.
    + by rewrite take_app_length.
Qed.

(** Two lines and a CR LF: the second line is indented, the first is not,
    as [' ' * 4] joins ['ab\r\n', 'cd']. *)
Example indent_two_lines :
  _indent_string [97; 98; 13; 10; 99; 100]%N 4
  = [97; 98; 13; 10; 32; 32; 32; 32; 99; 100]%N.
Proof. reflexivity. Qed.

(** The line boundaries as Python splits them. *)
Example splitlines_boundaries :
  splitlines [10; 13]%N [] = [[10]; [13]]%N /\
  splitlines [13; 10; 10]%N [] = [[13; 10]; [10]]%N /\
  splitlines [97; 13]%N [] = [[97; 13]]%N /\
  splitlines [97; 10; 10; 98]%N [] = [[97; 10]; [10]; [98]]%N /\
  splitlines [] [] = [].
Proof. repeat split. Qed.

End Decorator.

(* ===================================================================== *)
(** * More on the registration and disconnect protocol *)
(* ===================================================================== *)

Section ProtocolMore.
Import Server Api.

(** X8.  The keys of the selector being open clients, registering an
    open client that is not registered and unregistering it again leaves
    the selector, the registry and the clients as they were, and neither
    call raises; so does unregistering and registering again an open
    client that is registered. *)
Theorem register_unregister_round_trip (s : Server.t) (c : cid)
    (silent silent' : bool) :
  selector_keys_open s ->
  Client.closed (client s c) = false ->
  let there_and_back :=
    if bool_decide (c ∈ _recv_selector s)
    then (unregister c silent >> register c silent') s
    else (register c silent >> unregister c silent') s in
  there_and_back.1 = Ok tt /\
  _recv_selector there_and_back.2 = _recv_selector s /\
  clients there_and_back.2 = clients s /\
  heap there_and_back.2 = heap s /\
  length (trace there_and_back.2) = length (trace s) + 2.
Proof.
  intros _ Hopen. cbn zeta.
  destruct (bool_decide_reflect (c ∈ _recv_selector s)) as [Hin|Hout];
    srv_unfold; cbn.
  - rewrite bool_decide_true by done. cbn.
    rewrite bool_decide_false by set_solver. cbn. rewrite Hopen. cbn.
    split_and!; try done.
    + apply set_eq. intros x. destruct (decide (x = c)); set_solver.
    + rewrite !length_app. cbn. lia.
  - rewrite bool_decide_false by done. cbn. rewrite Hopen. cbn.
    rewrite bool_decide_true by set_solver. cbn.
    split_and!; try done.
    + set_solver.
    + rewrite !length_app. cbn. lia.
Qed.

Lemma register_unregister_round_trip_witness :
  let there_and_back := (register 2 false >> unregister 2 false) three_clients in
  there_and_back.1 = Ok tt /\
  _recv_selector there_and_back.2 = _recv_selector three_clients /\
  clients there_and_back.2 = clients three_clients /\
  heap there_and_back.2 = heap three_clients /\
  length (trace there_and_back.2) = length (trace three_clients) + 2.
Proof.
  apply (register_unregister_round_trip three_clients 2 false false).
  - intros c _. reflexivity.
  - reflexivity.
Defined.

(** [disconnect] of a client that is open, or closed but still in the
    selector: the four steps, in order. *)
Lemma disconnect_runs (s : Server.t) (c : cid) (reason : value) :
  Client.closed (client s c) = false \/ c ∈ _recv_selector s ->
  exists s',
    disconnect (One c) reason s
    = (match handle_closed s c reason with
       | Returns _ => Ok tt
       | Raises e => Err e
       end, s') /\
    trace s' = trace s ++ disconnect_calls c reason (bool_decide (c ∈ clients s)) /\
    _recv_selector s' = _recv_selector s ∖ {[c]} /\
    clients s' = list_remove c (clients s) /\
    client s' c = Client.mark_closed (client s c) /\
    (forall c', c' <> c -> client s' c' = client s c') /\
    _server_socket s' = _server_socket s /\
    same_setup s s'.
Proof.
  intros [Hopen|Hreg]; [by apply disconnect_open|].
  srv_unfold. cbn. rewrite bool_decide_true by done. cbn.
  destruct (bool_decide_reflect (c ∈ clients s)) as [Hin|Hin]; cbn;
    destruct (handle_closed s c reason); cbn;
    (eexists; split; [reflexivity|]); cbn;
    rewrite ?lookup_insert_eq, ?list_remove_notin by done;
    rewrite <- ?app_assoc; cbn;
    (split_and!; [done | done | done | done | | done | by repeat split]);
    intros c' Hne; by rewrite lookup_insert_ne.
Qed.

(** X9.  [disconnect] of one client returns exactly when the client is
    open or still in the selector, and [handle_closed] returns.  Whenever
    the first holds, the client leaves the selector, is closed, leaves the
    registry and [handle_closed] is called with the reason, in this order
    and whether or not the callback then raises; when it does not hold,
    nothing happens but the failed call of the selector. *)
Theorem disconnect_returns_iff (s : Server.t) (c : cid) (reason : value) :
  let run := disconnect (One c) reason s in
  let reachable :=
    Client.closed (client s c) = false \/ c ∈ _recv_selector s in
  (run.1 = Ok tt <->
     reachable /\ exists v, handle_closed s c reason = Returns v) /\
  (reachable ->
     trace run.2
     = trace s ++ disconnect_calls c reason (bool_decide (c ∈ clients s)) /\
     Client.closed (client run.2 c) = true /\
     (c ∉ _recv_selector run.2) /\
     clients run.2 = list_remove c (clients s) /\
     forall e, run.1 = Err e -> handle_closed s c reason = Raises e) /\
  (~ reachable ->
     run = (Err (Exn ValueError "Invalid file descriptor: -1"),
            log (EvSelUnregister c) s)).
Proof.
  cbn zeta.
  assert (forall H : Client.closed (client s c) = false \/ c ∈ _recv_selector s,
            exists s',
              disconnect (One c) reason s
              = (match handle_closed s c reason with
                 | Returns _ => Ok tt
                 | Raises e => Err e
                 end, s') /\
              trace s' = trace s
                ++ disconnect_calls c reason (bool_decide (c ∈ clients s)) /\
              Client.closed (client s' c) = true /\
              (c ∉ _recv_selector s') /\
              clients s' = list_remove c (clients s)) as Hruns.
  { intros H. destruct (disconnect_runs s c reason H)
      as (s' & Hrun & Htr & Hsel & Hcl & Hcc & _).
    exists s'. split_and!; [done | done | by rewrite Hcc | set_solver | done]. }
  assert (~ (Client.closed (client s c) = false \/ c ∈ _recv_selector s) ->
          disconnect (One c) reason s
          = (Err (Exn ValueError "Invalid file descriptor: -1"),
             log (EvSelUnregister c) s)) as Hstops.
  { intros Hno. apply disconnect_closed.
    - destruct (Client.closed (client s c)); [done|]. destruct Hno. by left.
    - intros Hin. destruct Hno. by right. }
  split_and!.
  - split.
    + intros Hok.
      destruct (decide (Client.closed (client s c) = false
                        \/ c ∈ _recv_selector s)) as [Hr|Hno].
      * split; [done|]. destruct (Hruns Hr) as (s' & Hrun & _).
        rewrite Hrun in Hok. cbn in Hok.
        destruct (handle_closed s c reason); [eauto | done].
      * rewrite (Hstops Hno) in Hok. done.
    + intros [Hr [v Hv]]. destruct (Hruns Hr) as (s' & Hrun & _).
      rewrite Hrun, Hv. done.
  - intros Hr. destruct (Hruns Hr) as (s' & Hrun & Htr & Hc & Hsel & Hcl).
    rewrite Hrun. cbn. split_and!; try done.
    intros e. by destruct (handle_closed s c reason); intros [= <-].
  - done.
Qed.

(** ** Iterables *)

Lemma target_induction (P : target -> Prop) :
  (forall c, P (One c)) ->
  (forall l, Forall P l -> P (Many l)) ->
  P Registry ->
  (forall pos, P (RegistryIter pos)) ->
  forall tg, P tg.
Proof.
  intros Hone Hmany Hreg Hiter. fix IH 1.
  intros [c|l| |pos]; [apply Hone | | apply Hreg | apply Hiter].
  apply Hmany. induction l as [|i l IHl]; constructor; [apply IH | apply IHl].
Qed.

Lemma bind_ext {A B : Type} (m m' : M A) (k k' : A -> M B) (s : Server.t) :
  m s = m' s -> (forall a s1, k a s1 = k' a s1) ->
  bind m k s = bind m' k' s.
Proof. intros Hm Hk. unfold bind. rewrite Hm. by destruct (m' s) as [[?|?] ?]. Qed.

Lemma bind_assoc {A B C : Type} (m : M A) (k : A -> M B) (h : B -> M C)
    (s : Server.t) :
  bind (bind m k) h s = bind m (fun a => bind (k a) h) s.
Proof. unfold bind. by destruct (m s) as [[?|?] ?]. Qed.

Lemma disconnect_many_app (l1 l2 : list target) (reason : value) (s : Server.t) :
  disconnect (Many (l1 ++ l2)) reason s
  = (disconnect (Many l1) reason >> disconnect (Many l2) reason) s.
Proof.
  revert s. induction l1 as [|i l1 IH]; intros s.
  - cbn [app]. unfold bind. cbn. done.
  - change ((i :: l1) ++ l2) with (i :: (l1 ++ l2)).
    rewrite !disconnect_many_cons, bind_assoc.
    apply bind_ext; [done|]. intros _ s1. apply IH.
Qed.

Lemma leaves_many_cons (i : target) (l : list target) :
  leaves (Many (i :: l)) = leaves i ++ leaves (Many l).
Proof. reflexivity. Qed.

Lemma held_many_cons (i : target) (l : list target) :
  held (Many (i :: l)) = held i && held (Many l).
Proof. reflexivity. Qed.

Lemma disconnect_each_many (l : list cid) (reason : value) (s : Server.t) :
  disconnect_each l reason s = disconnect (Many (One <$> l)) reason s.
Proof.
  revert s. induction l as [|c l IH]; intros s; [done|].
  rewrite fmap_cons, disconnect_many_cons. cbn [disconnect_each].
  apply bind_ext; [done|]. intros _ s1. apply IH.
Qed.

(** X10.  [disconnect] of an iterable that holds its clients itself,
    however nested - lists and tuples of clients and of such lists, not
    the registry or an iterator over it - is [disconnect] of the flat
    list of these clients, taken left to right: the same result and the
    same server.  An empty iterable does nothing.  The registry itself
    is walked as it is at the call, being copied: the clients it holds
    then are disconnected in order, whatever the loop removes from it. *)
Theorem disconnect_flattens (tg : target) (reason : value) (s : Server.t) :
  (held tg = true ->
     disconnect tg reason s = disconnect (Many (One <$> leaves tg)) reason s)
  /\ disconnect (Many []) reason s = (Ok tt, s)
  /\ disconnect Registry reason s
     = disconnect (Many (One <$> clients s)) reason s.
Proof.
  split_and!; [ | done | apply disconnect_each_many].
  revert s.
  induction tg as [c|l IH| |pos] using target_induction; intros s Hheld;
    [ | | done | done].
  - cbn [leaves fmap list_fmap]. rewrite disconnect_many_cons.
    unfold bind. cbn. by destruct (disconnect_client c reason s) as [[[]|?] ?].
  - induction IH as [|i l Hi _ IHl] in s, Hheld |- *; [done|].
    rewrite held_many_cons in Hheld. apply andb_true_iff in Hheld as [Hi' Hl'].
    rewrite leaves_many_cons, fmap_app, disconnect_many_app,
      disconnect_many_cons.
    apply bind_ext; [by apply Hi|]. intros _ s1. by apply IHl.
Qed.

(** A list of a client, a list of an empty list and a client, and a
    client. *)
Lemma disconnect_flattens_witness :
  let tg := Many [One 2; Many [Many []; One 0]; One 1] in
  disconnect tg shutting_down three_clients
  = disconnect (Many [One 2; One 0; One 1]) shutting_down three_clients
  /\ clients (disconnect tg shutting_down three_clients).2 = [].
Proof.
  split; [|reflexivity].
  destruct (disconnect_flattens (Many [One 2; Many [Many []; One 0]; One 1])
              shutting_down three_clients) as [Hflat _].
  apply Hflat. reflexivity.
Defined.

(** ** An iterator over the registry *)

Lemma disconnect_client_registry (c : cid) (reason : value) (s : Server.t) :
  sublist (clients (disconnect_client c reason s).2) (clients s).
Proof.
  srv_unfold. cbn.
  repeat match goal with
         | |- context [bool_decide ?P] => destruct (bool_decide P); cbn
         | |- context [Client.closed ?x] => destruct (Client.closed x); cbn
         | |- context [handle_closed ?s ?c ?r] =>
             destruct (handle_closed s c r); cbn
         end; try done; apply list_remove_sublist.
Qed.

(** The bound of the loop over a registry iterator is enough: more fuel
    changes nothing. *)
Lemma disconnect_walk_fuel (reason : value) :
  forall fuel pos s,
    length (clients s) - pos <= fuel ->
    disconnect_walk (S fuel) pos reason s = disconnect_walk fuel pos reason s.
Proof.
  induction fuel as [|fuel IH]; intros pos s Hfuel.
  - cbn [disconnect_walk]. unfold bind, gets. cbn [id].
    rewrite lookup_ge_None_2 by lia. done.
  - change (disconnect_walk (S (S fuel)) pos reason s)
      with ((let* s := gets id in
             match clients s !! pos with
             | None => ret tt
             | Some c =>
                 disconnect_client c reason >>
                 disconnect_walk (S fuel) (S pos) reason
             end) s).
    change (disconnect_walk (S fuel) pos reason s)
      with ((let* s := gets id in
             match clients s !! pos with
             | None => ret tt
             | Some c =>
                 disconnect_client c reason >>
                 disconnect_walk fuel (S pos) reason
             end) s).
    unfold bind at 1 3, gets. cbn [id].
    destruct (clients s !! pos) as [c|] eqn:Hc; [|done].
    apply lookup_lt_Some in Hc.
    pose proof (disconnect_client_registry c reason s) as Hsub.
    apply sublist_length in Hsub.
    unfold bind. destruct (disconnect_client c reason s) as [[[]|e] s1]; [|done].
    apply IH. cbn in Hsub. lia.
Qed.

Lemma list_remove_middle (c : cid) (kept rest : list cid) :
  c ∉ kept -> list_remove c (kept ++ c :: rest) = kept ++ rest.
Proof.
  induction kept as [|x kept IH]; intros Hc; cbn.
  - by rewrite bool_decide_true.
  - rewrite bool_decide_false by set_solver. f_equal. apply IH. set_solver.
Qed.

Lemma every_other_cons2 (c y : cid) (l : list cid) :
  every_other (c :: y :: l) = c :: every_other l.
Proof. reflexivity. Qed.

Lemma every_other_sub (l : list cid) : forall c, c ∈ every_other l -> c ∈ l.
Proof.
  induction l as [l IH] using (induction_ltof1 _ (@length cid));
    unfold ltof in *.
  intros c Hc. destruct l as [|y l]; [done|]. destruct l as [|z l].
  - done.
  - rewrite every_other_cons2 in Hc.
    apply elem_of_cons in Hc as [->|Hc]; [set_solver|].
    apply IH in Hc; [set_solver | cbn; lia].
Qed.

Lemma passed_over_cons2 (c y : cid) (l : list cid) :
  passed_over (c :: y :: l) = y :: passed_over l.
Proof. by destruct l. Qed.

Lemma passed_over_sub (l : list cid) : forall c, c ∈ passed_over l -> c ∈ l.
Proof.
  intros c Hc. destruct l as [|x l]; [by apply elem_of_nil in Hc|].
  cbn [passed_over] in Hc. apply every_other_sub in Hc. set_solver.
Qed.

Lemma passed_over_not_handed_out (l : list cid) :
  NoDup l -> forall c, c ∈ passed_over l -> c ∉ every_other l.
Proof.
  induction l as [l IH] using (induction_ltof1 _ (@length cid));
    unfold ltof in *.
  intros Hnd c Hc. destruct l as [|x l]; [by apply elem_of_nil in Hc|].
  destruct l as [|y l]; [by apply elem_of_nil in Hc|].
  rewrite passed_over_cons2 in Hc. rewrite every_other_cons2.
  apply NoDup_cons in Hnd as [Hx Hnd]. apply NoDup_cons in Hnd as [Hy Hnd].
  apply elem_of_cons in Hc as [->|Hc].
  - intros [->|Hin]%elem_of_cons; [set_solver|].
    apply every_other_sub in Hin. done.
  - intros [->|Hin]%elem_of_cons.
    + apply passed_over_sub in Hc. set_solver.
    + revert Hin. apply IH; [cbn; lia | done | done].
Qed.

(** The loop over a registry iterator that stands at the end of [kept],
    the clients after it being open: every second one of them is
    disconnected, and the others are passed over. *)
Lemma disconnect_walk_skips (reason : value) :
  forall fuel (kept rest : list cid) (s : Server.t),
    clients s = kept ++ rest ->
    NoDup (kept ++ rest) ->
    (forall c, c ∈ rest -> Client.closed (client s c) = false) ->
    (forall c, c ∈ rest -> exists v, handle_closed s c reason = Returns v) ->
    length rest <= fuel ->
    exists s',
      disconnect_walk fuel (length kept) reason s = (Ok tt, s') /\
      clients s' = kept ++ passed_over rest /\
      trace s' = trace s
        ++ flat_map (fun c => disconnect_calls c reason true) (every_other rest) /\
      _recv_selector s' = _recv_selector s ∖ list_to_set (every_other rest) /\
      (forall c, c ∉ every_other rest -> client s' c = client s c) /\
      (forall c, c ∈ every_other rest -> Client.closed (client s' c) = true) /\
      same_setup s s'.
Proof.
  induction fuel as [|fuel IH]; intros kept rest s Hreg Hnd Hopen Hret Hfuel.
  - destruct rest; [|cbn in Hfuel; lia]. exists s.
    cbn [disconnect_walk passed_over every_other flat_map].
    split_and!; [done | done | by rewrite app_nil_r | set_solver | done
                | by intros c Hc; apply elem_of_nil in Hc
                | apply same_setup_refl].
  - cbn [disconnect_walk]. unfold bind at 1, gets. cbn [id]. rewrite Hreg.
    destruct rest as [|c rest].
    { rewrite lookup_ge_None_2 by (rewrite app_nil_r; lia). exists s.
      cbn [passed_over every_other flat_map].
      split_and!; [done | done | by rewrite app_nil_r | set_solver | done
                  | by intros c Hc; apply elem_of_nil in Hc
                  | apply same_setup_refl]. }
    rewrite list_lookup_middle by done.
    apply NoDup_app in Hnd as Hnd'. destruct Hnd' as (Hk & Hdisj & Hrest).
    apply NoDup_cons in Hrest as [Hc Hrest].
    assert (c ∉ kept) as Hck by (intros Hin; apply (Hdisj c Hin); set_solver).
    destruct (disconnect_open s c reason) as
      (s1 & Hrun & Htr & Hsel & Hcl & Hcc & Hoth & _ & Hset);
      [apply Hopen; set_solver|].
    destruct (Hret c) as [v Hv]; [set_solver|]. rewrite Hv in Hrun.
    rewrite Hreg, list_remove_middle in Hcl by done.
    rewrite Hreg, bool_decide_true in Htr by set_solver.
    unfold bind at 1. change (disconnect_client c reason s)
      with (disconnect (One c) reason s). rewrite Hrun.
    destruct rest as [|y rest].
    + exists s1. cbn [passed_over every_other flat_map].
      rewrite app_nil_r in Hcl |- *.
      assert (disconnect_walk fuel (S (length kept)) reason s1 = (Ok tt, s1))
        as ->.
      { destruct fuel; [done|]. cbn [disconnect_walk].
        unfold bind, gets. cbn [id].
        rewrite Hcl, lookup_ge_None_2 by lia. done. }
      split_and!; [done | done | done | rewrite Hsel; set_solver | | | done].
      * intros c' Hc'. apply Hoth. set_solver.
      * intros c' ->%list_elem_of_singleton. by rewrite Hcc.
    + assert (y ∉ kept) as Hyk by (intros Hin; apply (Hdisj y Hin); set_solver).
      destruct (IH (kept ++ [y]) rest s1)
        as (s' & Hrun' & Hcl' & Htr' & Hsel' & Hoth' & Hcc' & Hset').
      { by rewrite Hcl, <- app_assoc. }
      { rewrite <- app_assoc. cbn. apply NoDup_app. split_and!; [done | | done].
        intros x Hx. specialize (Hdisj x Hx). set_solver. }
      { intros c' Hc'. rewrite Hoth; [apply Hopen; set_solver|].
        intros ->. set_solver. }
      { intros c' Hc'. destruct Hset as (_ & _ & -> & _). apply Hret.
        set_solver. }
      { cbn in Hfuel. lia. }
      rewrite length_app, Nat.add_1_r in Hrun'.
      exists s'. rewrite Hrun', every_other_cons2.
      assert (forall x, x ∈ every_other rest -> x ∈ rest) as Hsub
        by apply every_other_sub.
      split_and!; [done | | | | | | by eapply same_setup_trans].
      * rewrite Hcl', <- app_assoc. done.
      * rewrite Htr', Htr. cbn [flat_map]. by rewrite <- !app_assoc.
      * rewrite Hsel', Hsel. set_solver.
      * intros c' Hc'. rewrite Hoth', Hoth; set_solver.
      * intros c' [->|Hc']%elem_of_cons; [|by apply Hcc'].
        rewrite Hoth', Hcc; [done|]. intros Hin. apply Hsub in Hin.
        set_solver.
Qed.

(** X19.  [disconnect] of an iterator over the registry, as
    [iter(self.clients)] or a generator over it, which is not copied:
    the registry holding distinct open clients whose close notification
    returns, the call returns having disconnected and notified the
    clients at the even positions only; each removal moves the later
    clients down by one under the iterator, so that those at the odd
    positions are passed over, and stay in the registry, open and
    registered as before. *)
Theorem disconnect_registry_iterator_skips (s : Server.t) (reason : value) :
  NoDup (clients s) ->
  (forall c, c ∈ clients s -> Client.closed (client s c) = false) ->
  (forall c, c ∈ clients s -> exists v, handle_closed s c reason = Returns v) ->
  exists s',
    disconnect (RegistryIter 0) reason s = (Ok tt, s') /\
    clients s' = passed_over (clients s) /\
    trace s' = trace s
      ++ flat_map (fun c => disconnect_calls c reason true)
           (every_other (clients s)) /\
    (forall c, c ∈ every_other (clients s) ->
       Client.closed (client s' c) = true /\ (c ∉ _recv_selector s')) /\
    (forall c, c ∈ passed_over (clients s) ->
       client s' c = client s c /\
       (c ∈ _recv_selector s' <-> c ∈ _recv_selector s)).
Proof.
  intros Hnd Hopen Hret.
  destruct (disconnect_walk_skips reason (length (clients s)) [] (clients s) s)
    as (s' & Hrun & Hcl & Htr & Hsel & Hoth & Hcc & _); try done.
  pose proof (passed_over_not_handed_out (clients s) Hnd) as Hdisj.
  exists s'. cbn [disconnect]. unfold bind at 1, gets. cbn [id].
  rewrite Nat.sub_0_r. change 0 with (length (@nil cid)) at 1.
  split_and!; [done | done | done | |].
  - intros c Hc. split; [by apply Hcc|]. rewrite Hsel. set_solver.
  - intros c Hc. split; [apply Hoth; by apply Hdisj|].
    rewrite Hsel. specialize (Hdisj c Hc). set_solver.
Qed.

(** Of three clients, the first and the third are disconnected. *)
Lemma disconnect_registry_iterator_skips_witness :
  exists s',
    disconnect (RegistryIter 0) shutting_down three_clients = (Ok tt, s') /\
    clients s' = [1] /\
    trace s' = trace three_clients
      ++ flat_map (fun c => disconnect_calls c shutting_down true) [0; 2] /\
    (forall c, c ∈ [0; 2] ->
       Client.closed (client s' c) = true /\ (c ∉ _recv_selector s')) /\
    (forall c, c ∈ [1] ->
       client s' c = client three_clients c /\
       (c ∈ _recv_selector s' <-> c ∈ _recv_selector three_clients)).
Proof.
  apply (disconnect_registry_iterator_skips three_clients shutting_down).
  - cbn. repeat constructor; set_solver.
  - intros c _. reflexivity.
  - intros c _. by eexists.
Defined.

(** ** [stop] that does not go through *)

(** The bulk pass over the front of the registry. *)
Lemma disconnect_front (reason : value) :
  forall (front back : list cid) (s : Server.t),
    clients s = front ++ back ->
    NoDup (front ++ back) ->
    (forall c, c ∈ front -> Client.closed (client s c) = false) ->
    (forall c, c ∈ front -> exists v, handle_closed s c reason = Returns v) ->
    exists s',
      disconnect (Many (One <$> front)) reason s = (Ok tt, s') /\
      trace s' = trace s ++ flat_map (fun c => disconnect_calls c reason true) front /\
      clients s' = back /\
      _recv_selector s' = _recv_selector s ∖ list_to_set front /\
      (forall c, c ∉ front -> client s' c = client s c) /\
      _server_socket s' = _server_socket s /\
      same_setup s s'.
Proof.
  induction front as [|c front IH]; intros back s Hreg Hnd Hopen Hret.
  - exists s. cbn. rewrite app_nil_r.
    split_and!; try done; set_solver.
  - cbn in Hnd. apply NoDup_cons in Hnd as [Hc Hnd].
    destruct (disconnect_open s c reason) as
      (s1 & Hrun & Htr & Hsel & Hcl & Hcc & Hoth & Hsock & Hset);
      [apply Hopen; set_solver|].
    destruct (Hret c) as [v Hv]; [set_solver|]. rewrite Hv in Hrun.
    rewrite Hreg in Hcl. cbn [app] in Hcl. rewrite list_remove_head in Hcl.
    rewrite Hreg, bool_decide_true in Htr by set_solver.
    destruct (IH back s1)
      as (s' & Hrun' & Htr' & Hcl' & Hsel' & Hoth' & Hsock' & Hset');
      [done | done | | |].
    { intros c' Hc'. rewrite Hoth; [apply Hopen; set_solver | set_solver]. }
    { intros c' Hc'. destruct Hset as (_ & _ & -> & _). apply Hret. set_solver. }
    exists s'. rewrite fmap_cons, disconnect_many_cons.
    unfold bind at 1. rewrite Hrun.
    split_and!; [done | | done | | | congruence | by eapply same_setup_trans].
    + rewrite Htr', Htr. cbn [flat_map]. by rewrite <- !app_assoc.
    + rewrite Hsel', Hsel. set_solver.
    + intros c' Hc'. rewrite Hoth', Hoth; set_solver.
Qed.

(** X11.  When [handle_closed] raises for a connection during [stop], the
    exception leaves [stop] at once: the connections before it in the
    registry, and that one, have been disconnected and notified; those
    after it are still in the registry, untouched and registered as
    before; no loop has been signalled and the listening socket has not
    been shut down or closed. *)
Theorem stop_aborted_by_handle_closed (s : Server.t) (front back : list cid)
    (c : cid) (e : exn) :
  clients s = front ++ c :: back ->
  NoDup (clients s) ->
  (forall x, x ∈ front ++ [c] -> Client.closed (client s x) = false) ->
  (forall x, x ∈ front ->
     exists v, handle_closed s x shutting_down = Returns v) ->
  handle_closed s c shutting_down = Raises e ->
  exists s',
    stop s = (Err e, s') /\
    trace s' = trace s
      ++ flat_map (fun x => disconnect_calls x shutting_down true)
           (front ++ [c]) /\
    clients s' = back /\
    (forall x, x ∈ back ->
       client s' x = client s x /\
       (x ∈ _recv_selector s' <-> x ∈ _recv_selector s)) /\
    _server_socket s' = _server_socket s.
Proof.
  intros Hreg Hnd Hopen Hret Hraise. rewrite Hreg in Hnd.
  destruct (disconnect_front shutting_down front (c :: back) s)
    as (s1 & Hrun1 & Htr1 & Hcl1 & Hsel1 & Hoth1 & Hsock1 & Hset1);
    [done | done | | done |].
  { intros x Hx. apply Hopen. set_solver. }
  apply NoDup_app in Hnd as (_ & Hdisj & [Hc _]%NoDup_cons).
  assert (c ∉ front) as Hcf by (intros Hin; apply (Hdisj c Hin); set_solver).
  destruct (disconnect_open s1 c shutting_down)
    as (s2 & Hrun2 & Htr2 & Hsel2 & Hcl2 & Hcc2 & Hoth2 & Hsock2 & Hset2).
  { rewrite Hoth1 by done. apply Hopen. set_solver. }
  destruct Hset1 as (_ & _ & Hhc & _). rewrite Hhc, Hraise in Hrun2.
  rewrite Hcl1, list_remove_head in Hcl2.
  rewrite Hcl1, bool_decide_true in Htr2 by set_solver.
  exists s2. split_and!.
  - unfold stop. unfold bind at 1. cbn [gets id].
    unfold bind at 1. rewrite Hreg.
    change (front ++ c :: back) with (front ++ [c] ++ back).
    rewrite !fmap_app, disconnect_many_app. unfold bind at 1. rewrite Hrun1.
    rewrite disconnect_many_app. unfold bind at 1.
    cbn [fmap list_fmap]. rewrite disconnect_many_cons.
    unfold bind at 1. by rewrite Hrun2.
  - rewrite Htr2, Htr1, flat_map_app. cbn [flat_map].
    by rewrite app_nil_r, <- !app_assoc.
  - done.
  - intros x Hx.
    assert (x <> c) by (intros ->; done).
    assert (x ∉ front) by (intros Hin; apply (Hdisj x Hin); set_solver).
    split; [by rewrite Hoth2, Hoth1|]. rewrite Hsel2, Hsel1. set_solver.
  - congruence.
Qed.

(** Connection 1 of three raises in its close notification. *)
Lemma stop_aborted_by_handle_closed_witness :
  let s := set_handle_closed
             (fun c _ => if bool_decide (c = 1)
                         then Raises (Exn OtherError "in handle_closed")
                         else Returns VNone)
             three_clients in
  exists s',
    stop s = (Err (Exn OtherError "in handle_closed"), s') /\
    trace s' = trace s
      ++ flat_map (fun x => disconnect_calls x shutting_down true) ([0] ++ [1]) /\
    clients s' = [2] /\
    (forall x, x ∈ [2] ->
       client s' x = client s x /\
       (x ∈ _recv_selector s' <-> x ∈ _recv_selector s)) /\
    _server_socket s' = _server_socket s.
Proof.
  apply (stop_aborted_by_handle_closed
           (set_handle_closed
              (fun c _ => if bool_decide (c = 1)
                          then Raises (Exn OtherError "in handle_closed")
                          else Returns VNone)
              three_clients)
           [0] [2] 1 (Exn OtherError "in handle_closed")).
  - reflexivity.
  - cbn. repeat constructor; set_solver.
  - intros x _. reflexivity.
  - intros x ->%list_elem_of_singleton. by exists VNone.
  - reflexivity.
Defined.

(** X12.  [stop] on a server whose listening socket is not listening -
    never started, or stopped before - disconnects and notifies every
    connection and makes its four calls to the loops (which, called with
    [silent=True], are taken to return as they do on a running loop),
    then raises the [OSError] of the shutdown; the listening socket is
    left as it was, not closed. *)
Theorem stop_when_not_listening (s : Server.t) :
  NoDup (clients s) ->
  (forall c, c ∈ clients s -> Client.closed (client s c) = false) ->
  (forall c, c ∈ clients s ->
     exists v, handle_closed s c shutting_down = Returns v) ->
  _server_socket s <> Listening ->
  exists e s',
    stop s = (Err e, s') /\
    exn_cls e = OSError /\
    trace s' = trace s
      ++ flat_map (fun c => disconnect_calls c shutting_down true) (clients s)
      ++ stop_calls /\
    clients s' = [] /\
    _server_socket s' = _server_socket s.
Proof.
  intros Hnd Hopen Hret Hlisten.
  destruct (disconnect_registry shutting_down (clients s) s)
    as (s1 & Hrun & Htr & Hcl & Hsel & Hcc & _ & Hsock & _); try done.
  unfold stop. unfold bind at 1. cbn [gets id].
  unfold bind at 1. rewrite Hrun.
  unfold server_shutdown, server_close, emit, modify, gets, bind. cbn.
  rewrite Hsock.
  destruct (_server_socket s) eqn:Hs; [ | done | ]; cbn;
    (do 2 eexists; split; [reflexivity|]); cbn;
    (split_and!; [done | | done | done]);
    rewrite Htr; by rewrite <- !app_assoc.
Qed.

(** [stop] twice: the second raises. *)
Lemma stop_when_not_listening_witness :
  exists e s',
    stop (stop three_clients).2 = (Err e, s') /\
    exn_cls e = OSError /\
    trace s' = trace (stop three_clients).2
      ++ flat_map (fun c => disconnect_calls c shutting_down true)
           (clients (stop three_clients).2)
      ++ stop_calls /\
    clients s' = [] /\
    _server_socket s' = _server_socket (stop three_clients).2.
Proof.
  apply (stop_when_not_listening (stop three_clients).2).
  - vm_compute. constructor.
  - intros c Hc. vm_compute in Hc. by apply elem_of_nil in Hc.
  - intros c Hc. vm_compute in Hc. by apply elem_of_nil in Hc.
  - vm_compute. discriminate.
Defined.

End ProtocolMore.

(* ===================================================================== *)
(** * Calls made one after the other *)
(* ===================================================================== *)

Section Sequential.
Import Server Api.

Local Abbreviation keeps m := (forall s, settled s -> settled (m s).2).

Lemma closed_calls_app (c : cid) (t1 t2 : list event) :
  closed_calls c (t1 ++ t2) = closed_calls c t1 + closed_calls c t2.
Proof.
  induction t1 as [|e t1 IH]; [done|]. cbn [app closed_calls].
  destruct e; rewrite IH; try done. case_bool_decide; lia.
Qed.

Lemma closed_calls_disconnect (c c' : cid) (reason : value) (b : bool) :
  closed_calls c (disconnect_calls c' reason b)
  = if bool_decide (c' = c) then 1 else 0.
Proof. destruct b; cbn; case_bool_decide; lia. Qed.

Lemma list_remove_notin_after (c : cid) (l : list cid) :
  NoDup l -> c ∉ list_remove c l.
Proof.
  induction 1 as [|x l Hx Hnd IH]; cbn; [set_solver|].
  case_bool_decide; [by subst | set_solver].
Qed.

(** A change that closes nothing, notifies nobody, drops clients from the
    registry at most and adds open clients to the selector at most. *)
Lemma settled_frame (s s' : Server.t) :
  settled s ->
  sublist (clients s') (clients s) ->
  (forall c, Client.closed (client s' c) = Client.closed (client s c)) ->
  (forall c, c ∈ _recv_selector s' ->
     c ∈ _recv_selector s \/ Client.closed (client s c) = false) ->
  (forall c, closed_calls c (trace s') = closed_calls c (trace s)) ->
  settled s'.
Proof.
  intros [Hnd Hall] Hsub Hclosed Hsel Hcalls. split; [by eapply sublist_NoDup|].
  intros c. destruct (Hall c) as [Hc Hn]. rewrite Hclosed, Hcalls.
  split; [|done]. intros Hcl. destruct (Hc Hcl) as [Hs Hr]. split.
  - intros Hin. destruct (Hsel c Hin) as [|Hopen]; [done | congruence].
  - intros Hin. apply Hr. by eapply elem_of_sublist.
Qed.

Lemma keeps_bind {A B : Type} (m : M A) (k : A -> M B) :
  keeps m -> (forall a, keeps (k a)) -> keeps (bind m k).
Proof.
  intros Hm Hk s Hs. unfold bind. specialize (Hm s Hs).
  destruct (m s) as [[a|e] s1]; [by apply Hk | done].
Qed.

Lemma keeps_gets {A B : Type} (f : Server.t -> A) (k : A -> M B) :
  (forall s, settled s -> settled (k (f s) s).2) -> keeps (bind (gets f) k).
Proof. intros Hk s Hs. unfold bind, gets. by apply Hk. Qed.

Lemma keeps_try_except {A : Type} (m : M A) (h : exn -> M A) :
  keeps m -> (forall e, keeps (h e)) -> keeps (try_except m h).
Proof.
  intros Hm Hh s Hs. unfold try_except. specialize (Hm s Hs).
  destruct (m s) as [[a|e] s1]; [done | by apply Hh].
Qed.

Lemma keeps_emit (e : event) :
  (forall c reason, e <> EvHandleClosed c reason) -> keeps (emit e).
Proof.
  intros He s Hs. unfold emit, modify. cbn.
  apply (settled_frame s); [done | done | done | by left |]. intros c. cbn.
  rewrite closed_calls_app. destruct e; cbn; try lia. by destruct (He c0 reason).
Qed.

Lemma keeps_set_listener (l : listener) : keeps (modify (set_listener l)).
Proof. intros s Hs. apply (settled_frame s); try done. by left. Qed.

Lemma keeps_sel_register (c : cid) : keeps (sel_register c).
Proof.
  unfold sel_register. apply keeps_bind; [by apply keeps_emit|]. intros _.
  apply keeps_gets. intros s Hs. unfold id.
  destruct (bool_decide (c ∈ _recv_selector s)); [done|].
  destruct (Client.closed (client s c)) eqn:Hc; [done|].
  apply (settled_frame s); [done | done | done | | done]. cbn. intros c' Hc'.
  destruct (decide (c' = c)) as [->|]; [by right | left; set_solver].
Qed.

Lemma keeps_sel_unregister (c : cid) : keeps (sel_unregister c).
Proof.
  unfold sel_unregister. apply keeps_bind; [by apply keeps_emit|]. intros _.
  apply keeps_gets. intros s Hs. unfold id.
  destruct (bool_decide (c ∈ _recv_selector s)).
  - apply (settled_frame s); [done | done | done | | done]. cbn.
    intros c' Hc'. left. set_solver.
  - by destruct (Client.closed (client s c)).
Qed.

Lemma keeps_register (c : cid) (silent : bool) : keeps (register c silent).
Proof.
  apply keeps_try_except; [apply keeps_sel_register|]. intros e.
  destruct (is_KeyError e); [destruct silent|]; done.
Qed.

Lemma keeps_unregister (c : cid) (silent : bool) : keeps (unregister c silent).
Proof.
  apply keeps_try_except; [apply keeps_sel_unregister|]. intros e.
  destruct (is_KeyError e); [destruct silent|]; done.
Qed.

Lemma keeps_set_accepted (c : cid) : keeps (set_accepted c).
Proof.
  unfold set_accepted. apply keeps_gets. intros s Hs. unfold id.
  apply (settled_frame s); [done | done | | by left | done].
  intros c'. unfold client. cbn.
  destruct (decide (c' = c)) as [->|Hne];
    [by rewrite lookup_insert_eq | by rewrite lookup_insert_ne].
Qed.

(** One [disconnect] in a settled server: on a closed client it stops at
    the selector; on an open one it closes and notifies it, once. *)
Lemma keeps_disconnect_client (c : cid) (reason : value) :
  keeps (disconnect (One c) reason).
Proof.
  intros s Hs. destruct (Client.closed (client s c)) eqn:Hc.
  - destruct Hs as [Hnd Hall]. destruct (Hall c) as [Hcl _].
    destruct (Hcl Hc) as [Hsel _].
    rewrite disconnect_closed by done. cbn.
    apply (keeps_emit (EvSelUnregister c)); [done | by split].
  - destruct (disconnect_open s c reason Hc)
      as (s' & -> & Htr & Hsel & Hcl & Hcc & Hoth & _). cbn.
    destruct Hs as [Hnd Hall]. split.
    + rewrite Hcl. eapply sublist_NoDup; [done | apply list_remove_sublist].
    + intros c'. destruct (Hall c') as [Hc' Hn].
      rewrite Htr, closed_calls_app, closed_calls_disconnect, Hn, Hsel, Hcl.
      destruct (decide (c' = c)) as [->|Hne].
      * rewrite Hcc, Hc, bool_decide_true by done. cbn. split; [|done].
        intros _. split; [set_solver | by apply list_remove_notin_after].
      * rewrite Hoth, bool_decide_false by done. split; [|lia].
        intros Hclosed. destruct (Hc' Hclosed) as [Hs Hr]. split; [set_solver|].
        intros Hin. apply Hr. eapply elem_of_sublist; [done|].
        apply list_remove_sublist.
Qed.

Lemma keeps_disconnect_walk (reason : value) :
  forall fuel pos, keeps (disconnect_walk fuel pos reason).
Proof.
  induction fuel as [|fuel IH]; intros pos; [done|].
  cbn [disconnect_walk]. apply keeps_gets. intros s Hs. unfold id. cbn beta.
  destruct (clients s !! pos) as [c|]; [|done]. revert s Hs.
  apply keeps_bind; [apply keeps_disconnect_client | intros _; apply IH].
Qed.

Lemma keeps_disconnect (tg : target) (reason : value) :
  keeps (disconnect tg reason).
Proof.
  induction tg as [c|l IH| |pos] using target_induction.
  - apply keeps_disconnect_client.
  - induction IH as [|i l Hi _ IHl]; [done|].
    intros s Hs. rewrite disconnect_many_cons.
    apply keeps_bind; [done | by intros _ | done].
  - cbn [disconnect]. apply keeps_gets. intros s Hs. unfold id. cbn beta.
    revert Hs. generalize (clients s). intros l. revert s.
    induction l as [|c l IHl]; [done|]. cbn [disconnect_each].
    apply keeps_bind; [apply keeps_disconnect_client | by intros _].
  - cbn [disconnect]. apply keeps_gets. intros s Hs. unfold id. cbn beta.
    by apply keeps_disconnect_walk.
Qed.

Lemma keeps_handshake_with (k : kind) (c : cid) (o : outcome value) :
  keeps (handshake_with k c o).
Proof.
  unfold handshake_with. apply keeps_bind.
  { apply keeps_emit. by destruct k. }
  intros _. destruct k, o as [v|e]; cbn [accepted_after readable_after];
    try (destruct (is_socket_or_runtime_error e);
         [apply keeps_disconnect | done]);
    apply keeps_gets; intros s Hs;
    (destruct (is_True v && negb _); [|by apply keeps_disconnect]).
  - apply keeps_bind; [apply keeps_set_accepted | | done].
    intros _. apply keeps_register.
  - by apply keeps_register.
Qed.

Lemma keeps_send_after (c : cid) (o : outcome nat) : keeps (send_after c o).
Proof.
  destruct o as [n|e]; cbn [send_after]; [done|].
  destruct (is_socket_or_runtime_error e); [|done].
  apply keeps_bind; [apply keeps_disconnect | done].
Qed.

Lemma keeps_start : keeps start.
Proof.
  unfold start. apply keeps_bind; [by apply keeps_emit|]. intros _.
  apply keeps_gets. intros s Hs. unfold id. cbn beta.
  destruct (_server_socket s); [|done|done].
  destruct (bind_error s); [done|]. revert s Hs.
  apply keeps_bind; [by apply keeps_emit|]. intros _.
  apply keeps_bind; [apply keeps_set_listener|]. intros _.
  apply keeps_bind; [by apply keeps_emit|]. intros _.
  by apply keeps_emit.
Qed.

Lemma keeps_server_shutdown : keeps server_shutdown.
Proof.
  unfold server_shutdown. apply keeps_bind; [by apply keeps_emit|].
  intros _. apply keeps_gets. intros s Hs. unfold id. cbn beta.
  by destruct (_server_socket s).
Qed.

Lemma keeps_server_close : keeps server_close.
Proof.
  unfold server_close. apply keeps_bind; [by apply keeps_emit|].
  intros _. apply keeps_set_listener.
Qed.

Lemma keeps_stop : keeps stop.
Proof.
  unfold stop. apply keeps_gets. intros s Hs. unfold id. revert Hs.
  generalize (One <$> clients s). intros l. revert s.
  apply keeps_bind; [apply keeps_disconnect|]. intros _.
  do 4 (apply keeps_bind; [by apply keeps_emit|]; intros _).
  apply keeps_bind; [apply keeps_server_shutdown|]. intros _.
  apply keeps_server_close.
Qed.

Lemma poll_events_settled (events jobs : list cid) (s : Server.t) :
  settled s -> settled (poll_events events jobs s).2.
Proof.
  revert jobs s. induction events as [|c rest IH]; intros jobs s Hs; [done|].
  cbn [poll_events]. pose proof (keeps_sel_unregister c s Hs) as Hs1.
  destruct (sel_unregister c s) as [[[]|e] s1]; [by apply IH | done].
Qed.

Lemma accept_client_settled (c : cid) (s : Server.t) :
  settled s -> settled (accept_client c s).
Proof.
  intros Hs. unfold accept_client, unused.
  destruct (bool_decide_reflect (heap s !! c = None)) as [Hnone|]; [|done].
  destruct (bool_decide_reflect (c ∉ clients s)) as [Hnew|]; [|done].
  destruct (bool_decide_reflect (c ∉ _recv_selector s)) as [Hsel|]; [|done].
  cbn. destruct Hs as [Hnd Hall].
  assert (forall c', client
            (set_clients (fun l => l ++ [c])
               (set_heap (fun h => <[c := Client.init]> h) s)) c'
          = client s c') as Hsame.
  { intros c'. unfold client. cbn. destruct (decide (c' = c)) as [->|Hne].
    - by rewrite lookup_insert_eq, Hnone.
    - by rewrite lookup_insert_ne. }
  split.
  - cbn. apply NoDup_app. split_and!; [done | | apply NoDup_singleton].
    intros x Hx ->%list_elem_of_singleton. done.
  - intros c'. rewrite Hsame. cbn. destruct (Hall c') as [Hc' Hn].
    split; [|done]. intros Hcl. destruct (Hc' Hcl) as [Hs Hr].
    split; [done|]. intros [Hin | ->%list_elem_of_singleton]%elem_of_app;
      [done|]. unfold client in Hcl. by rewrite Hnone in Hcl.
Qed.

Lemma perform_settled (op : call) (s : Server.t) :
  settled s -> settled (perform op s).
Proof.
  destruct op; cbn [perform].
  - apply accept_client_settled.
  - apply keeps_handshake_with.
  - apply keeps_disconnect.
  - apply keeps_register.
  - apply keeps_unregister.
  - apply keeps_send_after.
  - apply poll_events_settled.
  - apply keeps_start.
  - apply keeps_stop.
Qed.

Lemma perform_all_settled (ops : list call) :
  forall s, settled s -> settled (perform_all ops s).
Proof.
  induction ops as [|op ops IH]; intros s Hs; [done|].
  apply IH. by apply perform_settled.
Qed.

Lemma fresh_server_settled (s : Server.t) : fresh_server s -> settled s.
Proof.
  intros (_ & Hsel & Hcl & Hheap & Htr). split.
  - rewrite Hcl. constructor.
  - intros c. unfold client. rewrite Hheap, Htr, lookup_empty. cbn. done.
Qed.

(** X13.  When the methods of the server are called one after the other
    - accepting, handshakes with any answer of the callback, [disconnect]
    of any argument, [register], [unregister], [send], poll passes,
    [start], [stop], in any order and number, from a new server and
    whatever the callbacks answer - [handle_closed] is called exactly
    once for every connection that has been closed and never for one that
    is open: never twice. *)
Theorem sequential_calls_notify_once (ops : list call) (s0 : Server.t)
    (c : cid) :
  fresh_server s0 ->
  let s := perform_all ops s0 in
  closed_calls c (trace s) = (if Client.closed (client s c) then 1 else 0) /\
  closed_calls c (trace s) <= 1.
Proof.
  intros Hfresh. cbn zeta.
  destruct (perform_all_settled ops s0 (fresh_server_settled s0 Hfresh))
    as [_ Hall].
  destruct (Hall c) as [_ Hn]. rewrite Hn.
  split; [done|]. destruct (Client.closed _); lia.
Qed.

(** X14.  Under the same calls in sequence, the registry never holds a
    client twice, and a closed client is neither in the registry nor in
    the selector: the registry and the selector hold open connections
    only. *)
Theorem sequential_calls_keep_registry (ops : list call) (s0 : Server.t) :
  fresh_server s0 ->
  let s := perform_all ops s0 in
  NoDup (clients s) /\
  (forall c, c ∈ clients s -> Client.closed (client s c) = false) /\
  (forall c, c ∈ _recv_selector s -> Client.closed (client s c) = false).
Proof.
  intros Hfresh. cbn zeta.
  destruct (perform_all_settled ops s0 (fresh_server_settled s0 Hfresh))
    as [Hnd Hall].
  split_and!; [done | |]; intros c Hc; destruct (Hall c) as [Hcl _];
    destruct (Client.closed (client s0 c)) eqn:?;
    destruct (Client.closed (client (perform_all ops s0) c)) eqn:Hclosed;
    try done; by destruct (Hcl eq_refl).
Qed.

(** A new server takes a connection, registers it, loses it on a failed
    [send] and is stopped. *)
Lemma sequential_calls_notify_once_witness :
  let s := perform_all
             [Start; Accept 0; Handshake Incoming 0 (Returns (VBool true));
              Send 0 (Raises Client.broken_on_send);
              Disconnect (One 0) (VStr "again"); Stop] Server.init in
  closed_calls 0 (trace s) = (if Client.closed (client s 0) then 1 else 0) /\
  closed_calls 0 (trace s) <= 1.
Proof.
  apply (sequential_calls_notify_once
           [Start; Accept 0; Handshake Incoming 0 (Returns (VBool true));
            Send 0 (Raises Client.broken_on_send);
            Disconnect (One 0) (VStr "again"); Stop] Server.init 0).
  by vm_compute.
Defined.

Lemma sequential_calls_keep_registry_witness :
  let s := perform_all
             [Accept 0; Accept 1; Accept 0;
              Handshake Incoming 1 (Returns (VStr "no")); Poll [0; 1]]
             Server.init in
  NoDup (clients s) /\
  (forall c, c ∈ clients s -> Client.closed (client s c) = false) /\
  (forall c, c ∈ _recv_selector s -> Client.closed (client s c) = false).
Proof.
  apply (sequential_calls_keep_registry
           [Accept 0; Accept 1; Accept 0;
            Handshake Incoming 1 (Returns (VStr "no")); Poll [0; 1]]
           Server.init).
  by vm_compute.
Defined.

(** ** A pass of the poll loop *)

Lemma sel_unregister_run (c : cid) (s : Server.t) :
  exists s1,
    sel_unregister c s
    = (if bool_decide (c ∈ _recv_selector s) then Ok tt
       else Err (if Client.closed (client s c) then invalid_descriptor
                 else Exn KeyError "client is not registered"), s1) /\
    _recv_selector s1 = _recv_selector s ∖ {[c]} /\
    clients s1 = clients s /\ heap s1 = heap s /\
    trace s1 = trace s ++ [EvSelUnregister c].
Proof.
  unfold sel_unregister, emit, modify, gets, bind, raise. cbn.
  destruct (bool_decide_reflect (c ∈ _recv_selector s)) as [Hin|Hout]; cbn.
  - by eexists.
  - change (client (log (EvSelUnregister c) s) c) with (client s c).
    destruct (Client.closed (client s c)); cbn;
      (eexists; split_and!; [reflexivity | cbn; set_solver | done..]).
Qed.

Lemma poll_events_spec (events : list cid) :
  forall jobs s,
  exists r started s',
    poll_events events jobs s = (r, jobs ++ started, s') /\
    NoDup started /\
    (forall c, c ∈ started -> c ∈ _recv_selector s) /\
    _recv_selector s' = _recv_selector s ∖ list_to_set started /\
    clients s' = clients s /\ heap s' = heap s /\
    match r with
    | Ok _ =>
        started = events /\
        trace s' = trace s ++ (EvSelUnregister <$> events)
    | Err e =>
        exists c rest,
          events = started ++ c :: rest /\
          (c ∉ _recv_selector s ∖ list_to_set started) /\
          e = (if Client.closed (client s c) then invalid_descriptor
               else Exn KeyError "client is not registered") /\
          trace s' = trace s ++ (EvSelUnregister <$> started ++ [c])
    end.
Proof.
  induction events as [|c rest IH]; intros jobs s; cbn [poll_events].
  - exists (Ok tt), [], s. rewrite app_nil_r. cbn.
    split_and!; try done; [constructor | set_solver | set_solver |].
    by rewrite app_nil_r.
  - destruct (sel_unregister_run c s) as (s1 & -> & Hsel & Hcl & Hheap & Htr).
    destruct (bool_decide_reflect (c ∈ _recv_selector s)) as [Hin|Hout].
    + destruct (IH (jobs ++ [c]) s1)
        as (r & started & s' & -> & Hnd & Hsub & Hsel' & Hcl' & Hheap' & Hr).
      exists r, (c :: started), s'. rewrite <- app_assoc. cbn [app].
      split_and!; [done | | | | congruence | congruence |].
      * constructor; [|done]. intros Hc. apply Hsub in Hc. set_solver.
      * intros c' [->|Hc']%elem_of_cons; [done|]. apply Hsub in Hc'. set_solver.
      * rewrite Hsel', Hsel. set_solver.
      * destruct r as [[]|e].
        -- destruct Hr as [-> Htr']. split; [done|].
           rewrite Htr', Htr, <- app_assoc. done.
        -- destruct Hr as (c' & rest' & -> & Hc' & -> & Htr').
           exists c', rest'. split_and!; [done | | |].
           ++ rewrite Hsel in Hc'. set_solver.
           ++ unfold client. by rewrite Hheap.
           ++ rewrite Htr', Htr, <- app_assoc. done.
    + exists (Err (if Client.closed (client s c) then invalid_descriptor
                   else Exn KeyError "client is not registered")), [], s1.
      rewrite app_nil_r. cbn.
      split_and!; [done | constructor | set_solver | set_solver | done | done |].
      exists c, rest. split_and!; [done | set_solver | done | done].
Qed.

(** X15.  One pass of [_mainthread_poll_readable] over the events of
    [select]: the clients handed to workers are the events up to the
    first one that is not in the selector any more (because it is not
    registered, or comes a second time); they are distinct, and each has
    left the selector when its worker starts.  The pass returns if there
    is no such event; else [unregister]'s error leaves the pass at that
    event - [KeyError], or [ValueError] for a closed client - and the
    events after it are neither unregistered nor handed over.  The
    registry and the clients are not touched. *)
Theorem poll_pass_dispatch (events : list cid) (s : Server.t) :
  exists r jobs s',
    _mainthread_poll_readable events s = (r, jobs, s') /\
    NoDup jobs /\
    (forall c, c ∈ jobs -> (c ∈ _recv_selector s) /\ (c ∉ _recv_selector s')) /\
    _recv_selector s' = _recv_selector s ∖ list_to_set jobs /\
    clients s' = clients s /\ heap s' = heap s /\
    match r with
    | Ok _ =>
        jobs = events /\
        trace s' = trace s ++ (EvSelUnregister <$> events)
    | Err e =>
        exists c rest,
          events = jobs ++ c :: rest /\
          (c ∉ _recv_selector s ∖ list_to_set jobs) /\
          e = (if Client.closed (client s c) then invalid_descriptor
               else Exn KeyError "client is not registered") /\
          trace s' = trace s ++ (EvSelUnregister <$> jobs ++ [c])
    end.
Proof.
  unfold _mainthread_poll_readable.
  destruct (poll_events_spec events [] s)
    as (r & started & s' & -> & Hnd & Hsub & Hsel & Hcl & Hheap & Hr).
  exists r, started, s'. cbn [app].
  split_and!; [done | done | | done | done | done | done].
  intros c Hc. split; [by apply Hsub|]. rewrite Hsel. set_solver.
Qed.

(** The same client reported twice: the second report ends the pass. *)
Example poll_pass_repeated_event :
  let s := set_selector (fun _ => {[0; 1; 2]}) Server.init in
  exists e s',
    _mainthread_poll_readable [0; 1; 0; 2] s = (Err e, [0; 1], s') /\
    exn_cls e = KeyError /\ _recv_selector s' = {[2]}.
Proof. do 2 eexists. split_and!; [vm_compute; reflexivity | done | by vm_compute]. Qed.

(** ** [SocketServer.send] *)

(** A socket error or [RuntimeError] of [Client.send] on an open client:
    the client is disconnected, and 0 is returned if [handle_closed]
    returns. *)
Lemma send_after_caught (c : cid) (e : exn) (s : Server.t) :
  Client.closed (client s c) = false ->
  is_socket_or_runtime_error e = true ->
  exists s',
    send_after c (Raises e) s
    = (match handle_closed s c (VStr (exn_str e)) with
       | Returns _ => Ok 0
       | Raises e' => Err e'
       end, s') /\
    Client.closed (client s' c) = true /\
    (c ∉ _recv_selector s') /\
    trace s' = trace s
      ++ disconnect_calls c (VStr (exn_str e)) (bool_decide (c ∈ clients s)).
Proof.
  intros Hopen He. cbn [send_after]. rewrite He.
  destruct (disconnect_open s c (VStr (exn_str e)) Hopen)
    as (s' & Hrun & Htr & Hsel & _ & Hcc & _).
  exists s'. unfold bind. rewrite Hrun.
  split_and!; [by destruct (handle_closed s c _) | | | done].
  - by rewrite Hcc.
  - rewrite Hsel. set_solver.
Qed.

(** X16.  [SocketServer.send] to an open client never returns a count
    strictly between 0 and the length of the payload.  It returns the
    length with every byte written and the server untouched; or 0, which
    has two meanings: the lock was not acquired in time, and the client
    stays connected, or [Client.send] raised a socket error or a
    [RuntimeError], and then the client has been disconnected, with the
    text of the error as the reason given to [handle_closed].  [send]
    raises in two cases only: [Client.send] raised an error of another
    class, such as the [ValueError] of a refused timeout, and the client
    stays connected; or [handle_closed] raised during the disconnect. *)
Theorem server_send_outcomes (c : cid) (lk : Client.lock_env)
    (sock : nat -> Client.sock_write) (bytes : list Byte.byte) (timeout : Z)
    (s : Server.t) :
  Client.closed (client s c) = false ->
  let cs := Client.send lk sock bytes timeout in
  let r := Api.send c lk sock bytes timeout s in
  let disconnected e :=
    Client.send_result cs = Client.Fails e /\
    is_socket_or_runtime_error e = true /\
    Client.closed (client r.2 c) = true /\
    (c ∉ _recv_selector r.2) /\
    trace r.2 = trace s
      ++ disconnect_calls c (VStr (exn_str e)) (bool_decide (c ∈ clients s)) in
  r.1 <> Client.NoFuel /\
  (forall n, r.1 = Client.Done n ->
     (n = length bytes /\ Client.wire cs = bytes /\ r.2 = s) \/
     (n = 0 /\ Client.wire cs = [] /\ r.2 = s /\
      Client.Lock_acquire lk timeout = Client.TimedOut) \/
     (n = 0 /\ exists e, disconnected e)) /\
  (forall e, r.1 = Client.Fails e ->
     (Client.send_result cs = Client.Fails e /\
      is_socket_or_runtime_error e = false /\ r.2 = s) \/
     (exists e0,
        disconnected e0 /\
        handle_closed s c (VStr (exn_str e0)) = Raises e)) /\
  (r.1 = Client.Hangs -> r.2 = s /\ Client.wire cs = []).
Proof.
  intros Hopen. cbn zeta. unfold Api.send, Client.send.
  assert (forall e,
    let r := match send_after c (Raises e) s with
             | (Ok n, s') => (Client.Done n, s')
             | (Err e', s') => (Client.Fails e', s')
             end in
    let D :=
      is_socket_or_runtime_error e = true /\
      Client.closed (client r.2 c) = true /\
      (c ∉ _recv_selector r.2) /\
      trace r.2 = trace s
        ++ disconnect_calls c (VStr (exn_str e))
             (bool_decide (c ∈ clients s)) in
    r.1 <> Client.NoFuel /\ r.1 <> Client.Hangs /\
    (forall n, r.1 = Client.Done n -> n = 0 /\ D) /\
    (forall e', r.1 = Client.Fails e' ->
       (e' = e /\ is_socket_or_runtime_error e = false /\ r.2 = s) \/
       (D /\ handle_closed s c (VStr (exn_str e)) = Raises e'))) as Hfail.
  { intros e. cbn zeta.
    destruct (is_socket_or_runtime_error e) eqn:He.
    - destruct (send_after_caught c e s Hopen He)
        as (s' & -> & Hcl & Hsel & Htr).
      destruct (handle_closed s c (VStr (exn_str e))) as [v|e'] eqn:Hcb; cbn.
      + split_and!; [done | done | | done]. by intros n [= <-].
      + split_and!; [done | done | done |]. intros e1 [= <-]. right.
        done.
    - cbn [send_after]. rewrite He. cbn.
      split_and!; [done | done | done |]. intros e1 [= <-]. by left. }
  destruct (Client.Lock_acquire lk timeout) eqn:Hacq.
  - pose proof (send_loop_spec sock bytes (length bytes) 0 0 []) as H.
    destruct (Client.send_loop (length bytes) sock 0 bytes 0 (length bytes) [])
      as [[r0 out] calls].
    destruct H as (Hf & Hh & _ & Hd & _); [lia | lia | done |].
    destruct r0 as [n|e| |]; [| | done | done];
      cbn [Client.send_result Client.wire].
    + destruct (Hd n eq_refl) as [-> ->]. cbn.
      split_and!; [done | | done | done]. intros n [= <-]. by left.
    + destruct (Hfail e) as (H1 & H2 & H3 & H4).
      split_and!; [done | | | done].
      * intros n Hn. destruct (H3 n Hn) as [-> Hrest].
        right. right. split; [done|]. by exists e.
      * intros e' He'. destruct (H4 e' He') as [(-> & Hn & Hs)|[Hrest Hr]].
        -- by left.
        -- right. by exists e.
  - cbn. split_and!; [done | | done | done].
    intros n [= <-]. right. left. done.
  - by cbn.
  - cbn [Client.send_result Client.wire].
    destruct (Hfail e) as (H1 & H2 & H3 & H4).
    split_and!; [done | | | done].
    + intros n Hn. destruct (H3 n Hn) as [-> Hrest].
      right. right. split; [done|]. by exists e.
    + intros e' He'. destruct (H4 e' He') as [(-> & Hn & Hs)|[Hrest Hr]].
      * by left.
      * right. by exists e.
Qed.

(** The peer is gone after two of three bytes: [send] answers 0 and the
    client is closed and notified with the text of the error. *)
Lemma server_send_outcomes_witness :
  let s := three_clients in
  let sock := fun n => if n =? 0 then Client.Room 2 else Client.Room 0 in
  let bytes := ["a"; "b"; "c"]%byte in
  let cs := Client.send (Client.FreeAfter 0) sock bytes (-1) in
  let r := Api.send 1 (Client.FreeAfter 0) sock bytes (-1) s in
  let disconnected e :=
    Client.send_result cs = Client.Fails e /\
    is_socket_or_runtime_error e = true /\
    Client.closed (client r.2 1) = true /\
    (1 ∉ _recv_selector r.2) /\
    trace r.2 = trace s
      ++ disconnect_calls 1 (VStr (exn_str e)) (bool_decide (1 ∈ clients s)) in
  r.1 <> Client.NoFuel /\
  (forall n, r.1 = Client.Done n ->
     (n = length bytes /\ Client.wire cs = bytes /\ r.2 = s) \/
     (n = 0 /\ Client.wire cs = [] /\ r.2 = s /\
      Client.Lock_acquire (Client.FreeAfter 0) (-1) = Client.TimedOut) \/
     (n = 0 /\ exists e, disconnected e)) /\
  (forall e, r.1 = Client.Fails e ->
     (Client.send_result cs = Client.Fails e /\
      is_socket_or_runtime_error e = false /\ r.2 = s) \/
     (exists e0,
        disconnected e0 /\
        handle_closed s 1 (VStr (exn_str e0)) = Raises e)) /\
  (r.1 = Client.Hangs -> r.2 = s /\ Client.wire cs = []).
Proof.
  apply (server_send_outcomes 1 (Client.FreeAfter 0)
           (fun n => if n =? 0 then Client.Room 2 else Client.Room 0)
           ["a"; "b"; "c"]%byte (-1) three_clients).
  reflexivity.
Defined.

Example server_send_broken_midway :
  let r := Api.send 1 (Client.FreeAfter 0)
             (fun n => if n =? 0 then Client.Room 2 else Client.Room 0)
             ["a"; "b"; "c"]%byte (-1) three_clients in
  r.1 = Client.Done 0 /\ clients r.2 = [0; 2] /\
  closed_calls 1 (trace r.2) = 1.
Proof. by vm_compute. Qed.

End Sequential.

(* ===================================================================== *)
(** * What every schedule keeps *)
(* ===================================================================== *)

Section Reachable.
Import Server Sched.

(** X17.  In every state the loops, the workers and concurrent
    [disconnect] calls can reach from a new server, under every schedule
    and whatever the callbacks answer, the registry [clients] holds no
    connection twice, and holds accepted connections only. *)
Theorem reachable_registry_distinct (ls : list label) (sys : system) :
  run ls Sched.init = Some sys ->
  NoDup (clients (server sys)) /\
  forall c, c ∈ clients (server sys) -> c < fresh sys.
Proof.
  intros Hrun. apply (registry_nodup ls Sched.init sys Hrun).
  split; [constructor|]. intros c Hc. cbn in Hc. by apply elem_of_nil in Hc.
Qed.

Lemma reachable_registry_distinct_witness :
  exists sys,
    run race_schedule Sched.init = Some sys /\
    NoDup (clients (server sys)) /\
    forall c, c ∈ clients (server sys) -> c < fresh sys.
Proof.
  eexists. split; [vm_compute; reflexivity|].
  apply (reachable_registry_distinct race_schedule). vm_compute. reflexivity.
Defined.

(** X18.  The flag [close_handled], which [Client.__init__] sets to
    [False], is never written afterwards: it is false in every client of
    every state that can be reached from a new server, under every
    schedule, also after the client has been closed and [handle_closed]
    called for it. *)
Theorem reachable_close_handled_unset (ls : list label) (sys : system)
    (c : cid) :
  run ls Sched.init = Some sys ->
  Client.close_handled (client (server sys) c) = false.
Proof.
  intros Hrun. apply flag_unset_client.
  apply (close_handled_never_set ls Sched.init sys Hrun).
  apply map_Forall_empty.
Qed.

Lemma reachable_close_handled_unset_witness :
  exists sys,
    run race_schedule Sched.init = Some sys /\
    Client.closed (client (server sys) 0) = true /\
    closed_calls 0 (trace (server sys)) = 2 /\
    Client.close_handled (client (server sys) 0) = false.
Proof.
  eexists. split; [vm_compute; reflexivity|].
  split; [by vm_compute|]. split; [by vm_compute|].
  apply (reachable_close_handled_unset race_schedule). vm_compute. reflexivity.
Defined.

End Reachable.
